(** * url-search-params: the [SearchParams] class and the properties of its
    query-string parsing, lookup, mutation, sorting and serialisation.

    The class is a thin layer over an insertion-ordered [Map] and over the
    built-ins [String.prototype.split], [String.prototype.replace],
    [Array.prototype.sort], [decodeURIComponent] and [encodeURIComponent].
    JavaScript strings are sequences of UTF-16 code units, and three of the
    built-ins (the two URI functions and the default sort order) are defined
    on code units, so strings are modelled as lists of code units. *)

From Stdlib Require Import String Ascii DecimalString.
From Stdlib Require Import List NArith ZArith Lia Bool Permutation Sorted.
Import ListNotations.
Open Scope N_scope.

Ltac Zify.zify_post_hook ::= Z.to_euclidean_division_equations.

(* ================================================================== *)
(** * Strings and completions                                          *)
(* ================================================================== *)

(** A JavaScript string: a finite sequence of UTF-16 code units.  A code
    unit is a number below [0x10000]; [code_units] says so where a result
    depends on it. *)
Definition jsstring := list N.

Definition code_units (s : jsstring) : bool := forallb (fun c => c <? 0x10000) s.

(** ASCII literals: [js "a=1"] is the string of the code units 97, 61, 49. *)
Definition js (s : string) : jsstring := map N_of_ascii (list_ascii_of_string s).

Fixpoint string_eqb (x y : jsstring) : bool :=
  match x, y with
  | [], [] => true
  | a :: x', b :: y' => (a =? b) && string_eqb x' y'
  | _, _ => false
  end.

(** The only exception the class can raise comes from the two URI
    built-ins. *)
Inductive exn := URIError.

(** The outcome of an evaluation: a value, or an exception thrown. *)
Inductive completion (A : Type) :=
| Normal (a : A)
| Throw (e : exn).
Arguments Normal {A} a.
Arguments Throw {A} e.

Definition bind {A B} (c : completion A) (k : A -> completion B) : completion B :=
  match c with
  | Normal a => k a
  | Throw e => Throw e
  end.

Notation "x <- c ;; k" := (bind c (fun x => k))
  (at level 61, c at next level, right associativity).
Notation "' p <- c ;; k" := (bind c (fun x => let p := x in k))
  (at level 61, p pattern, c at next level, right associativity).

Fixpoint mapM {A B} (f : A -> completion B) (l : list A) : completion (list B) :=
  match l with
  | [] => Normal []
  | a :: l' => b <- f a ;; bs <- mapM f l' ;; Normal (b :: bs)
  end.

(* ================================================================== *)
(** * The built-ins the class calls (ECMA-262)                         *)
(* ================================================================== *)

Module JS.

(** Code units the source names. *)
Definition PERCENT : N := 37.   (* % *)
Definition AMP : N := 38.       (* & *)
Definition PLUS : N := 43.      (* + *)
Definition SPACE : N := 32.
Definition EQUALS : N := 61.    (* = *)
Definition QUESTION : N := 63.  (* ? *)
Definition COMMA : N := 44.

(** [s.startsWith(c)] for a one-unit search string. *)
Definition startsWith (c : N) (s : jsstring) : bool :=
  match s with
  | x :: _ => x =? c
  | [] => false
  end.

(** [s.substring(1)]. *)
Definition substring1 (s : jsstring) : jsstring := skipn 1 s.

(** [s.split(sep)] for a one-unit separator: the pieces between the
    separators, empty pieces kept; never the empty array. *)
Fixpoint split (sep : N) (s : jsstring) : list jsstring :=
  match s with
  | [] => [[]]
  | c :: t =>
      if c =? sep then [] :: split sep t
      else match split sep t with
           | p :: ps => (c :: p) :: ps
           | [] => [[c]]
           end
  end.

(** [s.split(sep, lim)]: the string is split at EVERY separator and the
    array is then cut to its first [lim] pieces; the text after the
    [lim]-th piece is dropped, not left in the last piece. *)
Definition split_limit (sep : N) (lim : nat) (s : jsstring) : list jsstring :=
  firstn lim (split sep s).

(** [s.replace(/\+/g, ' ')]. *)
Definition replace_plus (s : jsstring) : jsstring :=
  map (fun c => if c =? PLUS then SPACE else c) s.

(** [parts.join(sep)]. *)
Fixpoint join (sep : N) (parts : list jsstring) : jsstring :=
  match parts with
  | [] => []
  | [p] => p
  | p :: ps => p ++ sep :: join sep ps
  end.

(** ** Surrogates and code points *)

Definition is_leading_surrogate (c : N) : bool := (0xD800 <=? c) && (c <=? 0xDBFF).
Definition is_trailing_surrogate (c : N) : bool := (0xDC00 <=? c) && (c <=? 0xDFFF).
Definition is_surrogate (c : N) : bool := (0xD800 <=? c) && (c <=? 0xDFFF).

Definition UTF16SurrogatePairToCodePoint (lead trail : N) : N :=
  (lead - 0xD800) * 0x400 + (trail - 0xDC00) + 0x10000.

Record CodePointRecord := {
  CodePoint : N;
  CodeUnitCount : nat;
  IsUnpairedSurrogate : bool
}.

(** [CodePointAt(string, position)], given the string from [position] on
    (which is not empty). *)
Definition CodePointAt (s : jsstring) : CodePointRecord :=
  match s with
  | [] => {| CodePoint := 0; CodeUnitCount := 1; IsUnpairedSurrogate := true |}
  | first :: t =>
      if negb (is_leading_surrogate first) && negb (is_trailing_surrogate first)
      then {| CodePoint := first; CodeUnitCount := 1; IsUnpairedSurrogate := false |}
      else if is_trailing_surrogate first
      then {| CodePoint := first; CodeUnitCount := 1; IsUnpairedSurrogate := true |}
      else match t with
           | [] => {| CodePoint := first; CodeUnitCount := 1; IsUnpairedSurrogate := true |}
           | second :: _ =>
               if negb (is_trailing_surrogate second)
               then {| CodePoint := first; CodeUnitCount := 1; IsUnpairedSurrogate := true |}
               else {| CodePoint := UTF16SurrogatePairToCodePoint first second;
                       CodeUnitCount := 2; IsUnpairedSurrogate := false |}
           end
  end.

(** [UTF16EncodeCodePoint(cp)]. *)
Definition UTF16EncodeCodePoint (cp : N) : jsstring :=
  if cp <=? 0xFFFF then [cp]
  else [(cp - 0x10000) / 0x400 + 0xD800; (cp - 0x10000) mod 0x400 + 0xDC00].

(** ** UTF-8 *)

(** The UTF-8 encoding of a code point. *)
Definition UTF8Encode (cp : N) : list N :=
  if cp <? 0x80 then [cp]
  else if cp <? 0x800 then [0xC0 + cp / 64; 0x80 + cp mod 64]
  else if cp <? 0x10000 then
    [0xE0 + cp / 4096; 0x80 + (cp / 64) mod 64; 0x80 + cp mod 64]
  else
    [0xF0 + cp / 262144; 0x80 + (cp / 4096) mod 64;
     0x80 + (cp / 64) mod 64; 0x80 + cp mod 64].

Definition is_continuation (B : N) : bool := (0x80 <=? B) && (B <? 0xC0).

(** The code point of a sequence of two to four octets, when the octets are
    the valid UTF-8 encoding of a code point: continuation octets of the
    form 10xxxxxx, the shortest encoding, no surrogate, at most 0x10FFFF. *)
Definition UTF8Decode (Octets : list N) : option N :=
  match Octets with
  | [B0; B1] =>
      let V := (B0 mod 32) * 64 + B1 mod 64 in
      if is_continuation B1 && (0x80 <=? V) then Some V else None
  | [B0; B1; B2] =>
      let V := (B0 mod 16) * 4096 + (B1 mod 64) * 64 + B2 mod 64 in
      if is_continuation B1 && is_continuation B2
         && (0x800 <=? V) && negb (is_surrogate V)
      then Some V else None
  | [B0; B1; B2; B3] =>
      let V := (B0 mod 8) * 262144 + (B1 mod 64) * 4096
               + (B2 mod 64) * 64 + B3 mod 64 in
      if is_continuation B1 && is_continuation B2 && is_continuation B3
         && (0x10000 <=? V) && (V <=? 0x10FFFF)
      then Some V else None
  | _ => None
  end.

(** The number of leading 1 bits of an octet. *)
Fixpoint leading_ones_from (i : nat) (B : N) : nat :=
  match i with
  | O => O
  | S j => if N.testbit B (N.of_nat j) then S (leading_ones_from j B) else O
  end.

Definition leading_ones (B : N) : nat := leading_ones_from 8 B.

(** ** Hexadecimal digits *)

Definition hex_value (c : N) : option N :=
  if (48 <=? c) && (c <=? 57) then Some (c - 48)        (* 0-9 *)
  else if (65 <=? c) && (c <=? 70) then Some (c - 55)   (* A-F *)
  else if (97 <=? c) && (c <=? 102) then Some (c - 87)  (* a-f *)
  else None.

(** [ParseHexOctet(string, position)], given the string from [position]
    on. *)
Definition ParseHexOctet (s : jsstring) : option N :=
  match s with
  | h1 :: h2 :: _ =>
      match hex_value h1, hex_value h2 with
      | Some a, Some b => Some (16 * a + b)
      | _, _ => None
      end
  | _ => None
  end.

(** An upper-case hexadecimal digit, as [Encode] writes it. *)
Definition hex_digit (d : N) : N := if d <? 10 then 48 + d else 55 + d.

(** ["%" + hex], the escape of one octet. *)
Definition escape_octet (B : N) : jsstring := [PERCENT; hex_digit (B / 16); hex_digit (B mod 16)].

Definition escape_octets (Octets : list N) : jsstring := flat_map escape_octet Octets.

(** ** encodeURIComponent *)

(** The code units [encodeURIComponent] leaves as they are: ASCII letters
    and digits and [- _ . ! ~ * ' ( )]. *)
Definition uriUnreserved (c : N) : bool :=
  ((65 <=? c) && (c <=? 90)) || ((97 <=? c) && (c <=? 122))
  || ((48 <=? c) && (c <=? 57))
  || existsb (N.eqb c) [45; 95; 46; 33; 126; 42; 39; 40; 41].

(** [Encode(string, unescapedSet)] with the set of [encodeURIComponent].
    An unpaired surrogate raises URIError. *)
Fixpoint Encode (s : jsstring) : completion jsstring :=
  match s with
  | [] => Normal []
  | C :: t =>
      if uriUnreserved C then R <- Encode t ;; Normal (C :: R)
      else
        let cp := CodePointAt s in
        if IsUnpairedSurrogate cp then Throw URIError
        else
          let escaped := escape_octets (UTF8Encode (CodePoint cp)) in
          match CodeUnitCount cp, t with
          | 2%nat, _ :: t' => R <- Encode t' ;; Normal (escaped ++ R)
          | _, _ => R <- Encode t ;; Normal (escaped ++ R)
          end
  end.

Definition encodeURIComponent (s : jsstring) : completion jsstring := Encode s.

(** ** decodeURIComponent *)

(** One escape ["%XX"] read at the head of the string: the octet and the
    string after it.  Fewer than three units left, no percent sign, or
    two units that are not hexadecimal digits raise URIError. *)
Definition read_escape (s : jsstring) : completion (N * jsstring) :=
  match s with
  | p :: ((_ :: _ :: t) as hex) =>
      if p =? PERCENT then
        match ParseHexOctet hex with
        | Some B => Normal (B, t)
        | None => Throw URIError
        end
      else Throw URIError
  | _ => Throw URIError
  end.

(** The loop [Repeat, while j < n] of [Decode]: [j] more escapes. *)
Fixpoint read_continuations (j : nat) (s : jsstring) : completion (list N * jsstring) :=
  match j with
  | O => Normal ([], s)
  | S j' =>
      '(B, s') <- read_escape s ;;
      '(Bs, s'') <- read_continuations j' s' ;;
      Normal (B :: Bs, s'')
  end.

(** One turn of the outer loop of [Decode] on a string that is not empty:
    the text appended to the result and the string left to decode.  The
    set of escapes [decodeURIComponent] preserves is empty. *)
Definition Decode_step (s : jsstring) : completion (jsstring * jsstring) :=
  match s with
  | [] => Normal ([], [])
  | C :: t =>
      if negb (C =? PERCENT) then Normal ([C], t)
      else
        '(B, t1) <- read_escape s ;;
        match leading_ones B with
        | 0%nat => Normal ([B], t1)
        | 1%nat => Throw URIError
        | S n' =>
            if (4 <? S n')%nat then Throw URIError
            else
              '(Bs, t2) <- read_continuations n' t1 ;;
              match UTF8Decode (B :: Bs) with
              | None => Throw URIError
              | Some V => Normal (UTF16EncodeCodePoint V, t2)
              end
        end
  end.

(** The outer loop of [Decode].  Each turn consumes at least one code
    unit, so [length s] turns are enough; [None] is a loop cut short. *)
Fixpoint Decode_loop (fuel : nat) (s : jsstring) : option (completion jsstring) :=
  match s with
  | [] => Some (Normal [])
  | _ :: _ =>
      match fuel with
      | O => None
      | S fuel' =>
          match Decode_step s with
          | Throw e => Some (Throw e)
          | Normal (piece, rest) =>
              match Decode_loop fuel' rest with
              | Some (Normal R) => Some (Normal (piece ++ R))
              | other => other
              end
          end
      end
  end.

(** [decodeURIComponent(s)].  The loop is given [length s] turns, which
    it never exhausts ([decodeURIComponent_total] below). *)
Definition decodeURIComponent (s : jsstring) : completion jsstring :=
  match Decode_loop (length s) s with
  | Some r => r
  | None => Throw URIError
  end.

(** ** Array.prototype.sort with no comparator *)

(** [IsLessThan] on two strings: the first code unit that differs decides,
    and a proper prefix is smaller.  Code units are compared, not code
    points. *)
Fixpoint string_ltb (x y : jsstring) : bool :=
  match x, y with
  | _, [] => false
  | [], _ :: _ => true
  | a :: x', b :: y' =>
      if a <? b then true
      else if b <? a then false
      else string_ltb x' y'
  end.

(** [keys.sort()] on an array of strings.  ECMA-262 leaves the algorithm to
    the implementation and fixes the result: the stable ascending
    arrangement under [string_ltb].  A stable insertion sort computes it. *)
Fixpoint sort_insert (k : jsstring) (sorted : list jsstring) : list jsstring :=
  match sorted with
  | [] => [k]
  | y :: rest => if string_ltb y k then y :: sort_insert k rest else k :: y :: rest
  end.

Definition sort (keys : list jsstring) : list jsstring :=
  fold_right sort_insert [] keys.

(** ** String(value) *)

#[local] Set Warnings "-register-all".

(** An integer every Number holds exactly: below 2^53 in magnitude
    ([Number.MAX_SAFE_INTEGER] is 2^53 - 1). *)
Definition safe_integer (z : Z) : bool := (Z.abs z <? 2 ^ 53)%Z.

(** The values the tests pass to [set] and [append]: [undefined], [null],
    booleans, Numbers that are safe integers (the constructor carries the
    bound, so no other integer is a value), strings, and arrays of such
    values. *)
Inductive any :=
| AUndefined
| ANull
| ABoolean (b : bool)
| ANumber (z : Z) (safe : safe_integer z = true)
| AString (s : jsstring)
| AArray (a : list any).

(** The decimal numeral of an integer, with a minus sign when it is
    negative.  [String(n)] is this numeral for every integral Number [n]
    below 10^21 in magnitude, hence for every safe integer. *)
Definition decimal_numeral (z : Z) : jsstring :=
  match z with
  | Z0 => js "0"
  | Zpos p => js (NilEmpty.string_of_uint (Pos.to_uint p))
  | Zneg p => js "-" ++ js (NilEmpty.string_of_uint (Pos.to_uint p))
  end.

(** [String(value)]; an array is its elements joined by commas, with
    [undefined] and [null] elements printed as the empty string. *)
Fixpoint ToString (v : any) : jsstring :=
  match v with
  | AUndefined => js "undefined"
  | ANull => js "null"
  | ABoolean true => js "true"
  | ABoolean false => js "false"
  | ANumber z _ => decimal_numeral z
  | AString s => s
  | AArray a =>
      let element x :=
        match x with
        | AUndefined | ANull => []
        | _ => ToString x
        end in
      (fix elements (l : list any) : jsstring :=
         match l with
         | [] => []
         | [x] => element x
         | x :: l' => element x ++ COMMA :: elements l'
         end) a
  end.

End JS.

(* ================================================================== *)
(** * The insertion-ordered Map                                        *)
(* ================================================================== *)

(** What a key of [params] holds: [string | string[]]. *)
Inductive pvalue :=
| PStr (s : jsstring)
| PArr (a : list jsstring).

(** [Map<string, string | string[]>]: the entries in insertion order.  A
    Map holds a key once ([Map_ok]); every operation below keeps that. *)
Definition Map := list (jsstring * pvalue).

Definition Map_keys (m : Map) : list jsstring := map fst m.

Fixpoint Map_get (key : jsstring) (m : Map) : option pvalue :=
  match m with
  | [] => None
  | (k, v) :: m' => if string_eqb k key then Some v else Map_get key m'
  end.

Definition Map_has (key : jsstring) (m : Map) : bool :=
  match Map_get key m with
  | Some _ => true
  | None => false
  end.

(** [m.set(key, v)]: a key already present keeps its place and takes the
    new value; a new key goes to the end. *)
Fixpoint Map_set (key : jsstring) (v : pvalue) (m : Map) : Map :=
  match m with
  | [] => [(key, v)]
  | (k, w) :: m' =>
      if string_eqb k key then (k, v) :: m' else (k, w) :: Map_set key v m'
  end.

(** [m.delete(key)]: the Map without the key. *)
Fixpoint Map_delete (key : jsstring) (m : Map) : Map :=
  match m with
  | [] => []
  | (k, w) :: m' =>
      if string_eqb k key then m' else (k, w) :: Map_delete key m'
  end.

Definition Map_ok (m : Map) : Prop := NoDup (Map_keys m).

(* ================================================================== *)
(** * The class SearchParams                                           *)
(* ================================================================== *)

Record SearchParams := {
  params : Map;
  original : jsstring
}.

Definition with_params (m : Map) (s : SearchParams) : SearchParams :=
  {| params := m; original := original s |}.

(** [decode]: plus signs become spaces, then [decodeURIComponent]. *)
Definition decode (s : jsstring) : completion jsstring :=
  JS.decodeURIComponent (JS.replace_plus s).

(** [encode]. *)
Definition encode (s : jsstring) : completion jsstring :=
  JS.encodeURIComponent s.

(** [addValue(key, value)].  [existing.push(value)] changes the array the
    Map holds; no other reference to that array exists ([getAll] hands out
    a copy, [sort] moves the arrays to the new Map and drops the old one),
    so the array is a value of the Map entry. *)
Definition addValue (key value : jsstring) (s : SearchParams) : SearchParams :=
  match Map_get key (params s) with
  | Some (PArr existing) => with_params (Map_set key (PArr (existing ++ [value])) (params s)) s
  | Some (PStr existing) => with_params (Map_set key (PArr [existing; value]) (params s)) s
  | None => with_params (Map_set key (PStr value) (params s)) s
  end.

(** [append(key, value)]. *)
Definition append (key : jsstring) (value : JS.any) (s : SearchParams) : SearchParams :=
  addValue key (JS.ToString value) s.

(** [delete(key)]: the store afterwards and the boolean returned. *)
Definition delete (key : jsstring) (s : SearchParams) : SearchParams * bool :=
  (with_params (Map_delete key (params s)) s, Map_has key (params s)).

(** [entries()], as the sequence the generator yields. *)
Definition entries (s : SearchParams) : list (jsstring * jsstring) :=
  flat_map (fun '(k, v) =>
              match v with
              | PArr a => map (fun inner => (k, inner)) a
              | PStr x => [(k, x)]
              end) (params s).

Definition keys (s : SearchParams) : list jsstring := map fst (entries s).

Definition values (s : SearchParams) : list jsstring := map snd (entries s).

Definition has (key : jsstring) (s : SearchParams) : bool := Map_has key (params s).

(** [set(key, value)]. *)
Definition set (key : jsstring) (value : JS.any) (s : SearchParams) : SearchParams :=
  with_params (Map_set key (PStr (JS.ToString value)) (params s)) s.

(** [toString()]. *)
Definition toString (s : SearchParams) : completion jsstring :=
  parts <- mapM (fun '(k, v) =>
                   ek <- encode k ;;
                   ev <- encode v ;;
                   Normal (ek ++ JS.EQUALS :: ev)) (entries s) ;;
  Normal (JS.join JS.AMP parts).

(** [!value] for a string: the empty string is falsy. *)
Definition falsy (v : jsstring) : bool :=
  match v with
  | [] => true
  | _ :: _ => false
  end.

(** [get(key)]; [None] is [null].  [!value] holds for [undefined] and for
    the empty string; an array is never falsy. *)
Definition get (key : jsstring) (s : SearchParams) : option jsstring :=
  match Map_get key (params s) with
  | None => None
  | Some (PStr value) => if falsy value then None else Some value
  | Some (PArr value) =>
      match value with
      | v0 :: _ => if falsy v0 then Some [] else Some v0
      | [] => Some []
      end
  end.

(** [getAll(key)]. *)
Definition getAll (key : jsstring) (s : SearchParams) : list jsstring :=
  match Map_get key (params s) with
  | None => []
  | Some (PStr value) => if falsy value then [] else [value]
  | Some (PArr value) => value
  end.

(** [sort()].  Every key of [keys] is a key of [params], so
    [this.params.get(k)!] is a value; the other branch is never taken. *)
Definition sort (s : SearchParams) : SearchParams :=
  let keys := JS.sort (Map_keys (params s)) in
  let sorted :=
    fold_left (fun (sorted : Map) k =>
                 match Map_get k (params s) with
                 | Some v => Map_set k v sorted
                 | None => sorted
                 end) keys [] in
  with_params sorted s.

(** The body of the loop of [parse] for one element of [vars]. *)
Definition parse_var (v : jsstring) (s : SearchParams) : completion SearchParams :=
  match JS.split_limit JS.EQUALS 2 v with
  | key :: value :: _ =>
      cleanKey <- decode key ;;
      cleanValue <- decode value ;;
      Normal (addValue cleanKey cleanValue s)
  | [key] => Normal (addValue key [] s)
  | [] => Normal s   (* [split] never returns the empty array *)
  end.

(** The loop of [parse]: the store as the loop leaves it, and the exception
    if one stopped it. *)
Fixpoint parse_vars (vars : list jsstring) (s : SearchParams) : SearchParams * option exn :=
  match vars with
  | [] => (s, None)
  | v :: vars' =>
      match parse_var v s with
      | Throw e => (s, Some e)
      | Normal s' => parse_vars vars' s'
      end
  end.

(** [parse(query)]. *)
Definition parse (query : jsstring) (s : SearchParams) : SearchParams * option exn :=
  let query := if JS.startsWith JS.QUESTION query then JS.substring1 query else query in
  match query with
  | [] => (s, None)
  | _ :: _ => parse_vars (JS.split JS.AMP query) s
  end.

(** The store the constructor hands to [parse]: [original] set, [params]
    an empty Map. *)
Definition empty_store (query : jsstring) : SearchParams :=
  {| params := []; original := query |}.

(** [new SearchParams(query)].  When [parse] throws, the [new] expression
    throws and gives the caller no object. *)
Definition new_SearchParams (query : jsstring) : completion SearchParams :=
  match parse query (empty_store query) with
  | (s, None) => Normal s
  | (_, Some e) => Throw e
  end.

(* ================================================================== *)
(** * Notions the properties are stated with                           *)
(* ================================================================== *)

(** The strict order of the default sort, as a relation. *)
Definition string_lt (x y : jsstring) : Prop := JS.string_ltb x y = true.

(** The code points of a string, read as [CodePointAt] reads them: a
    surrogate pair is one code point, an unpaired surrogate is itself. *)
Fixpoint code_points (s : jsstring) : list N :=
  match s with
  | [] => []
  | _ :: t =>
      let cp := JS.CodePointAt s in
      match JS.CodeUnitCount cp, t with
      | 2%nat, _ :: t' => JS.CodePoint cp :: code_points t'
      | _, _ => JS.CodePoint cp :: code_points t
      end
  end.

(** Lexicographic code-point order: the order of the sequences of code
    points (the comparison of two sequences of numbers is the one of
    [JS.string_ltb]). *)
Definition code_point_lt (x y : jsstring) : Prop :=
  JS.string_ltb (code_points x) (code_points y) = true.

(** A string of code units with no unpaired surrogate
    ([IsStringWellFormedUnicode]). *)
Fixpoint well_formed_unicode (s : jsstring) : bool :=
  match s with
  | [] => true
  | c :: t =>
      if JS.is_leading_surrogate c then
        match t with
        | c2 :: t' => JS.is_trailing_surrogate c2 && well_formed_unicode t'
        | [] => false
        end
      else negb (JS.is_trailing_surrogate c) && (c <? 0x10000) && well_formed_unicode t
  end.

(** A Unicode scalar value: a code point that is not a surrogate. *)
Definition scalar_value (cp : N) : Prop :=
  cp <= 0x10FFFF /\ JS.is_surrogate cp = false.

(** Every percent sign is followed by two hexadecimal digits: the
    well-formed percent sequences of the specification. *)
Fixpoint percent_well_formed (s : jsstring) : bool :=
  match s with
  | [] => true
  | c :: t =>
      (if c =? JS.PERCENT
       then match JS.ParseHexOctet t with Some _ => true | None => false end
       else true)
      && percent_well_formed t
  end.

(** [escapes Octets e]: [e] is the octets written as escapes ["%XX"], with
    hexadecimal digits of either case. *)
Inductive escapes : list N -> jsstring -> Prop :=
| escapes_nil : escapes [] []
| escapes_cons B Octets h1 h2 e :
    JS.ParseHexOctet [h1; h2] = Some B ->
    escapes Octets e ->
    escapes (B :: Octets) (JS.PERCENT :: h1 :: h2 :: e).

(** A string whose escapes spell UTF-8: code units other than the percent
    sign, and the escaped UTF-8 encodings of Unicode scalar values. *)
Inductive escaped_utf8 : jsstring -> Prop :=
| escaped_nil : escaped_utf8 []
| escaped_literal c s :
    c <> JS.PERCENT -> escaped_utf8 s -> escaped_utf8 (c :: s)
| escaped_scalar cp e s :
    scalar_value cp -> escapes (JS.UTF8Encode cp) e -> escaped_utf8 s ->
    escaped_utf8 (e ++ s).

(** The strings [parse] hands to [decode]: for every segment with an equals
    sign, the first two pieces of the segment. *)
Definition var_positions (v : jsstring) : list jsstring :=
  match JS.split_limit JS.EQUALS 2 v with
  | key :: value :: _ => [key; value]
  | _ => []
  end.

Definition decoded_positions (query : jsstring) : list jsstring :=
  let query := if JS.startsWith JS.QUESTION query then JS.substring1 query else query in
  match query with
  | [] => []
  | _ :: _ => flat_map var_positions (JS.split JS.AMP query)
  end.

(** What [entries] yields for one entry of the Map. *)
Definition yielded (kv : jsstring * pvalue) : list (jsstring * jsstring) :=
  match snd kv with
  | PArr a => map (fun inner => (fst kv, inner)) a
  | PStr x => [(fst kv, x)]
  end.

(** [addValue] for each pair of a sequence, in order. *)
Definition add_all (es : list (jsstring * jsstring)) (s : SearchParams) : SearchParams :=
  fold_left (fun st e => addValue (fst e) (snd e) st) es s.

(** The part of a segment before its first equals sign, and the part after
    it. *)
Fixpoint before_first (sep : N) (s : jsstring) : jsstring :=
  match s with
  | [] => []
  | c :: t => if c =? sep then [] else c :: before_first sep t
  end.

Fixpoint after_first (sep : N) (s : jsstring) : jsstring :=
  match s with
  | [] => []
  | c :: t => if c =? sep then t else after_first sep t
  end.

(** The store a query string constructs, when construction succeeds. *)
Definition constructed (query : jsstring) (s : SearchParams) : Prop :=
  new_SearchParams query = Normal s.

(** The number of occurrences of a code unit. *)
Definition count_unit (c : N) (s : jsstring) : nat :=
  List.length (filter (N.eqb c) s).

(** The entries of the keys other than [key]. *)
Definition other_entries (key : jsstring) (s : SearchParams) : list (jsstring * jsstring) :=
  filter (fun e => negb (string_eqb (fst e) key)) (entries s).

(** The code units [Encode] writes: unreserved ones, the percent sign and
    hexadecimal digits. *)
Definition written_unit (c : N) : Prop :=
  JS.uriUnreserved c = true \/ c = JS.PERCENT \/ exists d, c = JS.hex_digit d.

(** One part of the output of [toString]: the encoded key, an equals sign,
    the encoded value. *)
Definition serialized (e : jsstring * jsstring) (part : jsstring) : Prop :=
  exists ek ev,
    encode (fst e) = Normal ek /\ encode (snd e) = Normal ev
    /\ part = ek ++ JS.EQUALS :: ev.

(** The values recorded for a key, in the order [entries] yields them. *)
Definition recorded (key : jsstring) (s : SearchParams) : list jsstring :=
  map snd (filter (fun e => string_eqb (fst e) key) (entries s)).

(** A string with no surrogate code unit: its code points are its code
    units. *)
Definition no_surrogate (s : jsstring) : bool :=
  forallb (fun c => negb (JS.is_surrogate c)) s.

(** [x] is not after [y] in the order of the default sort. *)
Definition string_le (x y : jsstring) : Prop := JS.string_ltb y x = false.

(** The number of leading 1 bits, by the range of the octet. *)
Definition leading_ones_by_range (B : N) : nat :=
  if B <? 0x80 then 0
  else if B <? 0xC0 then 1
  else if B <? 0xE0 then 2
  else if B <? 0xF0 then 3
  else if B <? 0xF8 then 4
  else if B <? 0xFC then 5
  else if B <? 0xFE then 6
  else if B <? 0xFF then 7
  else 8.

(** The stores a program can hold: constructed, then changed by the
    methods. *)
Inductive reachable : SearchParams -> Prop :=
| reachable_new query s : constructed query s -> reachable s
| reachable_append key value s : reachable s -> reachable (append key value s)
| reachable_set key value s : reachable s -> reachable (set key value s)
| reachable_delete key s : reachable s -> reachable (fst (delete key s))
| reachable_sort s : reachable s -> reachable (sort s).

(** [Array.from(new SearchParams(qs))], when construction succeeds. *)
Definition parsed_entries (qs : jsstring) : option (list (jsstring * jsstring)) :=
  match new_SearchParams qs with
  | Normal u => Some (entries u)
  | Throw _ => None
  end.

(** [new SearchParams(qs).toString()]. *)
Definition parsed_toString (qs : jsstring) : completion jsstring :=
  u <- new_SearchParams qs ;; toString u.

(** The store of the tests ['b=2&b=1&c=3&a=4']. *)
Definition test_store : SearchParams :=
  {| params := [(js "b", PArr [js "2"; js "1"]); (js "c", PStr (js "3"));
                (js "a", PStr (js "4"))];
     original := js "b=2&b=1&c=3&a=4" |}.

(** A value of the Map as [addValue] and [set] leave it: a string, or an
    array of at least two strings. *)
Definition value_ok (w : pvalue) : Prop :=
  match w with
  | PArr a => (2 <= List.length a)%nat
  | PStr _ => True
  end.

Definition arrays_ok (m : Map) : Prop := Forall (fun kv => value_ok (snd kv)) m.

(** The query [parse] splits: the argument without one leading question
    mark. *)
Definition stripped (query : jsstring) : jsstring :=
  if JS.startsWith JS.QUESTION query then JS.substring1 query else query.

(** The segments [parse] loops over: none for the empty query. *)
Definition segments (query : jsstring) : list jsstring :=
  match stripped query with
  | [] => []
  | _ :: _ => JS.split JS.AMP (stripped query)
  end.

(** The pair [parse] records for a segment: the segment and [""] when it
    has no equals sign, the decoded first two pieces when it has one. *)
Definition var_pair (v : jsstring) : completion (jsstring * jsstring) :=
  match JS.split_limit JS.EQUALS 2 v with
  | key :: value :: _ =>
      cleanKey <- decode key ;;
      cleanValue <- decode value ;;
      Normal (cleanKey, cleanValue)
  | [key] => Normal (key, [])
  | [] => Normal ([], [])
  end.

(** The keys of a sequence in the order of their first occurrence, without
    those of [seen]. *)
Fixpoint first_seen (seen ks : list jsstring) : list jsstring :=
  match ks with
  | [] => []
  | k :: rest =>
      if existsb (string_eqb k) seen then first_seen seen rest
      else k :: first_seen (seen ++ [k]) rest
  end.


(* ================================================================== *)
(** * The cases of searchParams-test.ts                                *)
(* ================================================================== *)

Example test_parses_encoded_strings :
  parsed_entries (js "") = Some []
  /\ parsed_entries (js "?") = Some []
  /\ parsed_entries (js "=") = Some [(js "", js "")]
  /\ parsed_entries (js "?=") = Some [(js "", js "")]
  /\ parsed_entries (js "a") = Some [(js "a", js "")]
  /\ parsed_entries (js "a=") = Some [(js "a", js "")]
  /\ parsed_entries (js "a=1") = Some [(js "a", js "1")]
  /\ parsed_entries (js "a=1&b=2") = Some [(js "a", js "1"); (js "b", js "2")]
  /\ parsed_entries (js "a=1%200&b=2") = Some [(js "a", js "1 0"); (js "b", js "2")]
  /\ parsed_entries (js "a=1&a=2") = Some [(js "a", js "1"); (js "a", js "2")]
  /\ parsed_entries (js "hi%20there=both%3Bencoded")
     = Some [(js "hi there", js "both;encoded")]
  /\ parsed_entries (js "plus+signs+too=should+be+spaces")
     = Some [(js "plus signs too", js "should be spaces")].
Proof. repeat split; vm_compute; reflexivity. Qed.

Example test_gets_values :
  exists u,
    constructed (js "mult=1&mult=2&sing=1") u
    /\ has (js "mult") u = true
    /\ get (js "mult") u = Some (js "1")
    /\ getAll (js "mult") u = [js "1"; js "2"]
    /\ has (js "sing") u = true
    /\ get (js "sing") u = Some (js "1")
    /\ getAll (js "sing") u = [js "1"]
    /\ has (js "not") u = false
    /\ get (js "not") u = None
    /\ getAll (js "not") u = [].
Proof. eexists. split; [vm_compute; reflexivity|]. repeat split. Qed.

Example test_sorts_values :
  constructed (js "b=2&b=1&c=3&a=4") test_store
  /\ entries test_store
     = [(js "b", js "2"); (js "b", js "1"); (js "c", js "3"); (js "a", js "4")]
  /\ entries (sort test_store)
     = [(js "a", js "4"); (js "b", js "2"); (js "b", js "1"); (js "c", js "3")].
Proof. repeat split. Qed.

Example test_can_manipulate_values :
  let u1 := fst (delete (js "b") test_store) in
  let u2 := append (js "a") (JS.AString (js "5")) u1 in
  let u3 := set (js "a") (JS.AString (js "10")) u2 in
  let u4 := set (js "a") (JS.ANumber 11 eq_refl) u3 in
  let u5 := append (js "a")
              (JS.AArray [JS.AString (js "some"); JS.AString (js "other");
                          JS.AString (js "value")]) u4 in
  entries u1 = [(js "c", js "3"); (js "a", js "4")]
  /\ entries u2 = [(js "c", js "3"); (js "a", js "4"); (js "a", js "5")]
  /\ entries u3 = [(js "c", js "3"); (js "a", js "10")]
  /\ entries u4 = [(js "c", js "3"); (js "a", js "11")]
  /\ entries u5
     = [(js "c", js "3"); (js "a", js "11"); (js "a", js "some,other,value")].
Proof. repeat split. Qed.

Example test_String_of_safe_integers :
  JS.ToString (JS.ANumber 0 eq_refl) = js "0"
  /\ JS.ToString (JS.ANumber (-5) eq_refl) = js "-5"
  /\ JS.ToString (JS.ANumber 9007199254740991 eq_refl) = js "9007199254740991"
  /\ JS.ToString (JS.AArray [JS.ANumber 1 eq_refl; JS.ANull;
                             JS.AArray [JS.ABoolean true; JS.AUndefined];
                             JS.AString (js "x")])
     = js "1,,true,,x"
  /\ JS.safe_integer (2 ^ 53) = false.
Proof. repeat split. Qed.

Example test_implements_iterators :
  values test_store = [js "2"; js "1"; js "3"; js "4"]
  /\ keys test_store = [js "b"; js "b"; js "c"; js "a"].
Proof. repeat split. Qed.

Example test_implements_toString :
  parsed_toString (js "") = Normal (js "")
  /\ parsed_toString (js "?") = Normal (js "")
  /\ parsed_toString (js "=") = Normal (js "=")
  /\ parsed_toString (js "a=1") = Normal (js "a=1")
  /\ parsed_toString (js "a=1&b=1") = Normal (js "a=1&b=1")
  /\ parsed_toString (js "a=1&a=2&b=1") = Normal (js "a=1&a=2&b=1")
  /\ parsed_toString (js "a=%20hi&a=2&b=1") = Normal (js "a=%20hi&a=2&b=1")
  /\ parsed_toString (js "hi%20hi=%20hi") = Normal (js "hi%20hi=%20hi").
Proof. repeat split; vm_compute; reflexivity. Qed.

(* ================================================================== *)
(** * Strings and the Map: basic facts                                 *)
(* ================================================================== *)

Lemma string_eqb_eq (x y : jsstring) : string_eqb x y = true <-> x = y.
Proof.
  revert y; induction x as [|a x IH]; intros [|b y]; simpl; split;
    try congruence; try reflexivity.
  - intros H. apply andb_true_iff in H as [Hab Hxy].
    apply N.eqb_eq in Hab. apply IH in Hxy. congruence.
  - intros H. injection H as -> ->. rewrite N.eqb_refl. simpl. now apply IH.
Qed.

Lemma string_eqb_refl (x : jsstring) : string_eqb x x = true.
Proof. now apply string_eqb_eq. Qed.

Lemma string_eqb_neq (x y : jsstring) : string_eqb x y = false <-> x <> y.
Proof.
  split.
  - intros H E. apply string_eqb_eq in E. congruence.
  - intros H. destruct (string_eqb x y) eqn:E; [|reflexivity].
    apply string_eqb_eq in E. contradiction.
Qed.

Lemma string_eqb_sym (x y : jsstring) : string_eqb x y = string_eqb y x.
Proof.
  destruct (string_eqb y x) eqn:E.
  - apply string_eqb_eq in E. subst. apply string_eqb_refl.
  - apply string_eqb_neq in E. apply string_eqb_neq. congruence.
Qed.

Ltac string_cases k k' :=
  let E := fresh "E" in
  destruct (string_eqb k k') eqn:E;
  [apply string_eqb_eq in E; try subst | pose proof (proj1 (string_eqb_neq _ _) E)].

Lemma Map_get_set_same (k : jsstring) (v : pvalue) (m : Map) :
  Map_get k (Map_set k v m) = Some v.
Proof.
  induction m as [|[k0 w] m IH]; simpl.
  - now rewrite string_eqb_refl.
  - destruct (string_eqb k0 k) eqn:E; simpl; now rewrite E.
Qed.

Lemma Map_get_set_other (k k' : jsstring) (v : pvalue) (m : Map) :
  k' <> k -> Map_get k' (Map_set k v m) = Map_get k' m.
Proof.
  intros Hne. induction m as [|[k0 w] m IH]; simpl.
  - apply string_eqb_neq in Hne. rewrite string_eqb_sym. now rewrite Hne.
  - string_cases k0 k; simpl.
    + apply string_eqb_neq in Hne. rewrite string_eqb_sym. now rewrite Hne.
    + now rewrite IH.
Qed.

Lemma Map_get_None (k : jsstring) (m : Map) :
  Map_get k m = None <-> ~ In k (Map_keys m).
Proof.
  induction m as [|[k0 w] m IH]; simpl.
  - tauto.
  - string_cases k0 k.
    + split; [discriminate | intros H; exfalso; apply H; now left].
    + rewrite IH. tauto.
Qed.

Lemma Map_get_Some_In (k : jsstring) (v : pvalue) (m : Map) :
  Map_get k m = Some v -> In (k, v) m.
Proof.
  induction m as [|[k0 w] m IH]; simpl; [discriminate|].
  string_cases k0 k.
  - intros [= ->]. now left.
  - intros H'. right. now apply IH.
Qed.

Lemma Map_set_absent (k : jsstring) (v : pvalue) (m : Map) :
  Map_get k m = None -> Map_set k v m = m ++ [(k, v)].
Proof.
  induction m as [|[k0 w] m IH]; simpl; [reflexivity|].
  destruct (string_eqb k0 k); [discriminate|].
  intros H. now rewrite IH.
Qed.

Lemma Map_set_present (k : jsstring) (v : pvalue) (m : Map) :
  Map_has k m = true ->
  exists before old after,
    m = before ++ (k, old) :: after /\ ~ In k (Map_keys before)
    /\ Map_set k v m = before ++ (k, v) :: after.
Proof.
  unfold Map_has. induction m as [|[k0 w] m IH]; simpl; [discriminate|].
  string_cases k0 k.
  - intros _. exists [], w, m. simpl. tauto.
  - intros Hm. destruct (IH Hm) as (b & old & a & -> & Hb & ->).
    exists ((k0, w) :: b), old, a. simpl. repeat split; trivial.
    intros [?|?]; [congruence | contradiction].
Qed.

Lemma Map_keys_set (k : jsstring) (v : pvalue) (m : Map) :
  Map_keys (Map_set k v m)
  = if Map_has k m then Map_keys m else Map_keys m ++ [k].
Proof.
  unfold Map_has. induction m as [|[k0 w] m IH]; simpl; [reflexivity|].
  string_cases k0 k; simpl; [reflexivity|].
  rewrite IH. now destruct (Map_get k m).
Qed.

Lemma Map_ok_set (k : jsstring) (v : pvalue) (m : Map) :
  Map_ok m -> Map_ok (Map_set k v m).
Proof.
  unfold Map_ok. rewrite Map_keys_set. intros H.
  destruct (Map_has k m) eqn:E; [exact H|].
  unfold Map_has in E. destruct (Map_get k m) eqn:G; [discriminate|].
  apply Map_get_None in G.
  apply NoDup_rev in H. rewrite <- (rev_involutive (_ ++ _)).
  apply NoDup_rev. rewrite rev_app_distr. simpl. constructor; trivial.
  now rewrite <- in_rev.
Qed.

Lemma Map_keys_delete_incl (k : jsstring) (m : Map) :
  incl (Map_keys (Map_delete k m)) (Map_keys m).
Proof.
  induction m as [|[k0 w] m IH]; simpl; [easy|].
  destruct (string_eqb k0 k); simpl.
  - now apply incl_tl.
  - intros x [<-|Hx]; [now left | right; now apply IH].
Qed.

Lemma Map_ok_delete (k : jsstring) (m : Map) :
  Map_ok m -> Map_ok (Map_delete k m).
Proof.
  unfold Map_ok. induction m as [|[k0 w] m IH]; simpl; [easy|].
  intros H. inversion H as [|? ? Hin Hnd]; subst.
  destruct (string_eqb k0 k); simpl; [exact Hnd|].
  constructor; [|now apply IH].
  intros Hc. apply Hin. now apply (Map_keys_delete_incl k m).
Qed.

Lemma Map_ok_addValue (k v : jsstring) (s : SearchParams) :
  Map_ok (params s) -> Map_ok (params (addValue k v s)).
Proof.
  intros H. unfold addValue.
  destruct (Map_get k (params s)) as [[x|a]|]; simpl; now apply Map_ok_set.
Qed.

(* ================================================================== *)
(** * Lookup: get and getAll                                           *)
(* ================================================================== *)

(** C1. The store built from ["a="] holds the key ["a"] with the single
    value [""]: [entries] yields it and [has] says so.  [get("a")] tests
    [!value], which holds for the empty string, and returns [null] where
    the first recorded value [""] is due. *)
Theorem get_empty_first_value_is_null :
  exists s,
    constructed (js "a=") s
    /\ entries s = [(js "a", js "")]
    /\ has (js "a") s = true
    /\ get (js "a") s = None.
Proof.
  eexists. unfold constructed. split; [vm_compute; reflexivity|].
  repeat split.
Qed.

(** C3. On the same store [getAll("a")] returns the empty array, as for an
    absent key, where the one-element array [[""]] is due. *)
Theorem getAll_empty_single_value_is_empty :
  exists s,
    constructed (js "a=") s
    /\ entries s = [(js "a", js "")]
    /\ has (js "a") s = true
    /\ getAll (js "a") s = [].
Proof.
  eexists. unfold constructed. split; [vm_compute; reflexivity|].
  repeat split.
Qed.

(** What [get] and [getAll] return apart from that: for a key whose value
    is not the empty string alone, the first value and all the values. *)
Lemma get_getAll_first (key : jsstring) (s : SearchParams) (v : jsstring) (vs : list jsstring) :
  getAll key s = v :: vs -> get key s = Some v.
Proof.
  unfold getAll, get.
  destruct (Map_get key (params s)) as [[x|a]|]; try discriminate.
  - destruct x; simpl; [discriminate|]. now intros [= <- <-].
  - intros ->. now destruct v.
Qed.

(* ================================================================== *)
(** * Parsing one segment                                              *)
(* ================================================================== *)

(** C2. The segment ["a=b=c"] is cut by [split('=', 2)] into the pieces
    ["a"], ["b"], ["c"], of which the first two are kept: the value
    recorded is ["b"], and the text after the second equals sign is lost,
    where the value ["b=c"] after the first equals sign is due. *)
Theorem parse_drops_text_after_second_equals :
  JS.split_limit JS.EQUALS 2 (js "a=b=c") = [js "a"; js "b"]
  /\ after_first JS.EQUALS (js "a=b=c") = js "b=c"
  /\ exists s,
       constructed (js "a=b=c") s
       /\ entries s = [(js "a", js "b")]
       /\ entries s <> [(js "a", js "b=c")].
Proof.
  split; [reflexivity|]. split; [reflexivity|].
  eexists. unfold constructed. split; [vm_compute; reflexivity|].
  split; [reflexivity | discriminate].
Qed.

(* ================================================================== *)
(** * Mutation: set and append                                         *)
(* ================================================================== *)

(** C9. [set] stores the string conversion of the value as it is, with no
    decoding, and so does [append]; [set("a", "%20+")] stores the four units
    of ["%20+"].  [getAll] after [set(k, "")] nevertheless answers with the
    empty array, by the test [!value] of [getAll], where [[""]] is due. *)
Theorem set_empty_string_getAll_is_empty (s : SearchParams) (k : jsstring) :
  Map_get k (params (set k (JS.AString (js "")) s)) = Some (PStr (js ""))
  /\ getAll k (set k (JS.AString (js "")) s) = []
  /\ getAll (js "a") (set (js "a") (JS.AString (js "%20+")) s) = [js "%20+"].
Proof.
  unfold getAll, set. simpl. rewrite !Map_get_set_same. repeat split.
Qed.

(** The value [set] puts in the Map, for every key and value. *)
Lemma set_stores_verbatim (s : SearchParams) (k : jsstring) (v : JS.any) :
  Map_get k (params (set k v s)) = Some (PStr (JS.ToString v)).
Proof. unfold set. simpl. apply Map_get_set_same. Qed.

Lemma entries_app (m1 m2 : Map) (o : jsstring) :
  entries {| params := m1 ++ m2; original := o |}
  = entries {| params := m1; original := o |}
    ++ entries {| params := m2; original := o |}.
Proof. unfold entries. simpl. apply flat_map_app. Qed.

Lemma other_entries_absent (k : jsstring) (m : Map) (o : jsstring) :
  ~ In k (Map_keys m) ->
  other_entries k {| params := m; original := o |}
  = entries {| params := m; original := o |}.
Proof.
  unfold other_entries, entries. simpl.
  induction m as [|[k0 w] m IH]; simpl; [reflexivity|].
  intros H. rewrite filter_app, IH by tauto. f_equal.
  assert (Hk : string_eqb k0 k = false) by (apply string_eqb_neq; tauto).
  destruct w as [x|a]; simpl.
  - now rewrite Hk.
  - clear -Hk. induction a as [|y a IHa]; simpl; [reflexivity|].
    rewrite Hk. simpl. now rewrite IHa.
Qed.

Lemma other_entries_set (k : jsstring) (v : pvalue) (m : Map) (o : jsstring) :
  other_entries k {| params := Map_set k v m; original := o |}
  = other_entries k {| params := m; original := o |}.
Proof.
  unfold other_entries, entries. simpl.
  induction m as [|[k0 w] m IH]; simpl.
  - rewrite app_nil_r. destruct v as [x|a]; simpl.
    + now rewrite string_eqb_refl.
    + induction a as [|y a IHa]; simpl; [reflexivity|].
      now rewrite string_eqb_refl.
  - assert (Hself : forall w', filter (fun e => negb (string_eqb (fst e) k))
              (match w' with
               | PStr x => [(k, x)]
               | PArr a => map (fun inner => (k, inner)) a
               end) = []).
    { intros [x|a]; simpl; [now rewrite string_eqb_refl|].
      induction a as [|y a IHa]; simpl; [reflexivity|].
      now rewrite string_eqb_refl. }
    string_cases k0 k; simpl.
    + now rewrite !filter_app, !Hself.
    + now rewrite !filter_app, IH.
Qed.

(** C8. [set(k, v)] on a key the store holds leaves the top-level key order
    as it was, so [k] keeps its position; on an absent key it adds [k] at
    the end.  In both cases the entries of the other keys, and their order,
    are unchanged. *)
Theorem set_keeps_position (s : SearchParams) (k : jsstring) (v : JS.any) :
  Map_keys (params (set k v s))
  = (if has k s then Map_keys (params s) else Map_keys (params s) ++ [k])
  /\ other_entries k (set k v s) = other_entries k s
  /\ (forall k', k' <> k ->
        Map_get k' (params (set k v s)) = Map_get k' (params s)).
Proof.
  unfold set, has. simpl. split; [apply Map_keys_set|]. split.
  - destruct s as [m o]. unfold with_params. simpl. apply other_entries_set.
  - intros k' Hne. now apply Map_get_set_other.
Qed.

(** What [getAll] answers after [set] and after [append], when the string
    stored is not the empty one. *)
Lemma getAll_after_set (s : SearchParams) (k : jsstring) (v : JS.any) :
  JS.ToString v <> [] -> getAll k (set k v s) = [JS.ToString v].
Proof.
  intros H. unfold getAll. rewrite set_stores_verbatim.
  now destruct (JS.ToString v).
Qed.

Lemma append_stores_verbatim (s : SearchParams) (k : jsstring) (v : JS.any) :
  has k s = false ->
  Map_get k (params (append k v s)) = Some (PStr (JS.ToString v)).
Proof.
  unfold has, Map_has, append, addValue.
  destruct (Map_get k (params s)) eqn:E; [discriminate|]. intros _.
  simpl. apply Map_get_set_same.
Qed.

(** The place of a key [set] replaces, spelled out. *)
Lemma set_present_in_place (s : SearchParams) (k : jsstring) (v : JS.any) :
  has k s = true ->
  exists before old after,
    params s = before ++ (k, old) :: after
    /\ ~ In k (Map_keys before)
    /\ params (set k v s) = before ++ (k, PStr (JS.ToString v)) :: after.
Proof. intros H. unfold set. simpl. now apply Map_set_present. Qed.

Lemma set_absent_at_end (s : SearchParams) (k : jsstring) (v : JS.any) :
  has k s = false ->
  params (set k v s) = params s ++ [(k, PStr (JS.ToString v))].
Proof.
  unfold has, Map_has, set. simpl.
  destruct (Map_get k (params s)) eqn:E; [discriminate|].
  intros _. now apply Map_set_absent.
Qed.

(* ================================================================== *)
(** * The output of encodeURIComponent                                 *)
(* ================================================================== *)

(** Induction on a string one or two code units at a time, as [Encode] and
    [code_points] consume it. *)
Lemma string_ind2 (P : jsstring -> Prop) :
  P [] ->
  (forall c t, P t -> (forall c2 t', t = c2 :: t' -> P t') -> P (c :: t)) ->
  forall s, P s.
Proof.
  intros H0 Hstep s.
  enough (H : P s /\ (forall c2 t', s = c2 :: t' -> P t')) by apply H.
  induction s as [|c t [IH1 IH2]].
  - split; [exact H0 | discriminate].
  - split; [now apply Hstep|]. now intros c2 t' [= _ <-].
Qed.

Lemma escape_octets_written (Octets : list N) :
  Forall written_unit (JS.escape_octets Octets).
Proof.
  induction Octets as [|B Bs IH]; simpl; [constructor|].
  constructor; [right; now left|].
  constructor; [right; right; eauto|].
  constructor; [right; right; eauto|]. exact IH.
Qed.

Lemma Encode_cons (C : N) (t : jsstring) :
  JS.Encode (C :: t)
  = if JS.uriUnreserved C then R <- JS.Encode t ;; Normal (C :: R)
    else
      let cp := JS.CodePointAt (C :: t) in
      if JS.IsUnpairedSurrogate cp then Throw URIError
      else
        let escaped := JS.escape_octets (JS.UTF8Encode (JS.CodePoint cp)) in
        match JS.CodeUnitCount cp, t with
        | 2%nat, _ :: t' => R <- JS.Encode t' ;; Normal (escaped ++ R)
        | _, _ => R <- JS.Encode t ;; Normal (escaped ++ R)
        end.
Proof. reflexivity. Qed.

Lemma bind_Normal {A B} (c : completion A) (k : A -> completion B) (b : B) :
  bind c k = Normal b -> exists a, c = Normal a /\ k a = Normal b.
Proof. destruct c as [a|e]; simpl; [eauto | discriminate]. Qed.

Lemma Encode_written (s r : jsstring) :
  JS.Encode s = Normal r -> Forall written_unit r.
Proof.
  revert r. induction s as [|C t IH1 IH2] using string_ind2; intros r.
  - intros [= <-]. constructor.
  - rewrite Encode_cons. destruct (JS.uriUnreserved C) eqn:EU.
    + intros H. apply bind_Normal in H as (R & ER & [= <-]).
      constructor; [now left | now apply IH1].
    + cbv zeta.
      destruct (JS.IsUnpairedSurrogate (JS.CodePointAt (C :: t))); [discriminate|].
      set (esc := JS.escape_octets _).
      assert (Hesc : Forall written_unit esc) by apply escape_octets_written.
      destruct (JS.CodeUnitCount (JS.CodePointAt (C :: t))) as [|[|[|n]]];
        destruct t as [|c2 t'];
        intros H; apply bind_Normal in H as (R & ER & [= <-]);
        (apply Forall_app; split; [exact Hesc|]);
        first [now apply IH1 | now apply (IH2 _ _ eq_refl) ].
Qed.

Lemma written_unit_not (c : N) :
  written_unit c ->
  c <> JS.EQUALS /\ c <> JS.AMP /\ c <> JS.PLUS /\ c <> JS.SPACE /\ c <> JS.QUESTION.
Proof.
  unfold JS.EQUALS, JS.AMP, JS.PLUS, JS.SPACE, JS.QUESTION.
  intros [H|[->|[d ->]]].
  - repeat split; intros ->; discriminate.
  - unfold JS.PERCENT. repeat split; discriminate.
  - unfold JS.hex_digit. destruct (N.ltb_spec d 10); repeat split; lia.
Qed.

Lemma mapM_Normal {A B} (f : A -> completion B) (l : list A) (bs : list B) :
  mapM f l = Normal bs <-> Forall2 (fun a b => f a = Normal b) l bs.
Proof.
  revert bs. induction l as [|a l IH]; intros bs; simpl.
  - split; [intros [= <-]; constructor | intros H; now inversion H].
  - split.
    + intros H. apply bind_Normal in H as (b & Hb & H).
      apply bind_Normal in H as (bs' & Hbs & [= <-]).
      constructor; [exact Hb | now apply IH].
    + intros H. inversion H as [|? b ? bs' Hb Hbs]; subst.
      rewrite Hb. simpl. apply IH in Hbs. now rewrite Hbs.
Qed.

Lemma toString_Normal (s : SearchParams) (out : jsstring) :
  toString s = Normal out <->
  exists parts, Forall2 serialized (entries s) parts /\ out = JS.join JS.AMP parts.
Proof.
  unfold toString. split.
  - intros H. apply bind_Normal in H as (parts & Hp & [= <-]).
    exists parts. split; [|reflexivity].
    apply mapM_Normal in Hp. eapply Forall2_impl; [|exact Hp].
    intros [k v] part Hkv. simpl in *.
    apply bind_Normal in Hkv as (ek & Hek & Hkv).
    apply bind_Normal in Hkv as (ev & Hev & [= <-]).
    now exists ek, ev.
  - intros (parts & Hp & ->).
    assert (Hm : mapM (fun '(k, v) => ek <- encode k ;; ev <- encode v ;;
                                     Normal (ek ++ JS.EQUALS :: ev)) (entries s)
                 = Normal parts).
    { apply mapM_Normal. eapply Forall2_impl; [|exact Hp].
      intros [k v] part (ek & ev & Hek & Hev & ->). simpl in *.
      now rewrite Hek, Hev. }
    now rewrite Hm.
Qed.

Lemma count_unit_app (c : N) (x y : jsstring) :
  count_unit c (x ++ y) = (count_unit c x + count_unit c y)%nat.
Proof. unfold count_unit. now rewrite filter_app, length_app. Qed.

Lemma count_unit_absent (c : N) (x : jsstring) :
  Forall (fun u => u <> c) x -> count_unit c x = 0%nat.
Proof.
  unfold count_unit. induction 1 as [|u x Hu _ IH]; simpl; [reflexivity|].
  destruct (N.eqb_spec c u); [congruence | exact IH].
Qed.

Lemma encode_no_unit (c : N) (k ek : jsstring) :
  In c [JS.EQUALS; JS.AMP; JS.PLUS; JS.SPACE; JS.QUESTION] ->
  encode k = Normal ek -> Forall (fun u => u <> c) ek.
Proof.
  intros Hc H. apply Encode_written in H.
  eapply Forall_impl; [|exact H].
  intros u Hu. apply written_unit_not in Hu. simpl in Hc.
  intuition congruence.
Qed.

Lemma serialized_equals (e : jsstring * jsstring) (part : jsstring) :
  serialized e part -> count_unit JS.EQUALS part = 1%nat.
Proof.
  intros (ek & ev & Hek & Hev & ->).
  rewrite count_unit_app.
  rewrite (count_unit_absent _ ek) by (eapply encode_no_unit; [|exact Hek]; simpl; tauto).
  change (JS.EQUALS :: ev) with ([JS.EQUALS] ++ ev).
  rewrite count_unit_app.
  rewrite (count_unit_absent _ ev) by (eapply encode_no_unit; [|exact Hev]; simpl; tauto).
  reflexivity.
Qed.

Lemma join_cons2 (sep : N) (p q : jsstring) (ps : list jsstring) :
  JS.join sep (p :: q :: ps) = p ++ sep :: JS.join sep (q :: ps).
Proof. reflexivity. Qed.

Lemma count_equals_join (es : list (jsstring * jsstring)) (parts : list jsstring) :
  Forall2 serialized es parts ->
  count_unit JS.EQUALS (JS.join JS.AMP parts) = List.length es.
Proof.
  induction 1 as [|e p es ps Hp Hps IH]; [reflexivity|].
  destruct Hps as [|e' p' es' ps' Hp' Hps'].
  - simpl. now apply serialized_equals in Hp.
  - rewrite join_cons2, count_unit_app.
    change (JS.AMP :: ?x) with ([JS.AMP] ++ x). rewrite count_unit_app, IH.
    apply serialized_equals in Hp. rewrite Hp. reflexivity.
Qed.

(** C10. [toString] writes an equals sign between the key and the value of
    every entry, whatever the value: the output is the parts of the
    entries, in order, joined by ampersands, and the part of an entry is
    its encoded key, an equals sign, and its encoded value, neither of
    which holds an equals sign; so the output holds as many equals signs
    as the store has entries.  The store parsed from the bare key ["a"]
    holds the entry [("a", "")] and serialises as ["a="], which is not the
    string it was parsed from, although that string holds no plus sign and
    no escape; likewise ["k=v&a"] comes back as ["k=v&a="]. *)
Theorem toString_emits_equals_for_every_entry :
  (forall s out,
      toString s = Normal out ->
      (exists parts,
          out = JS.join JS.AMP parts
          /\ Forall2 (fun e part =>
                        exists ek ev,
                          encode (fst e) = Normal ek
                          /\ encode (snd e) = Normal ev
                          /\ part = ek ++ JS.EQUALS :: ev
                          /\ ~ In JS.EQUALS ek /\ ~ In JS.EQUALS ev)
                     (entries s) parts)
      /\ count_unit JS.EQUALS out = List.length (entries s))
  /\ (exists s,
        constructed (js "a") s
        /\ entries s = [(js "a", js "")]
        /\ toString s = Normal (js "a=")
        /\ js "a=" <> js "a")
  /\ (exists s,
        constructed (js "k=v&a") s
        /\ entries s = [(js "k", js "v"); (js "a", js "")]
        /\ toString s = Normal (js "k=v&a=")).
Proof.
  split; [|split].
  - intros s out H. apply toString_Normal in H as (parts & Hp & ->).
    split; [|now apply count_equals_join].
    exists parts. split; [reflexivity|].
    eapply Forall2_impl; [|exact Hp].
    intros e part (ek & ev & Hek & Hev & ->). exists ek, ev.
    assert (Hno : forall k r, encode k = Normal r -> ~ In JS.EQUALS r).
    { intros k r Hr Hin.
      assert (Hf : Forall (fun u => u <> JS.EQUALS) r)
        by (eapply encode_no_unit; [|exact Hr]; simpl; tauto).
      rewrite Forall_forall in Hf. now apply (Hf _ Hin). }
    repeat split; trivial; [now apply Hno with (fst e) | now apply Hno with (snd e)].
  - eexists. unfold constructed. split; [vm_compute; reflexivity|].
    repeat split. discriminate.
  - eexists. unfold constructed. split; [vm_compute; reflexivity|].
    repeat split.
Qed.

(* ================================================================== *)
(** * split, and the two shapes of a segment                           *)
(* ================================================================== *)

Lemma split_first (sep : N) (s : jsstring) :
  JS.split sep s
  = before_first sep s
    :: (if existsb (N.eqb sep) s then JS.split sep (after_first sep s) else []).
Proof.
  induction s as [|c t IH]; simpl; [reflexivity|].
  rewrite (N.eqb_sym sep c). destruct (c =? sep); simpl; [reflexivity|].
  rewrite IH. reflexivity.
Qed.

Lemma split_absent (sep : N) (s : jsstring) :
  ~ In sep s -> JS.split sep s = [s].
Proof.
  induction s as [|c t IH]; simpl; [reflexivity|].
  intros H. destruct (N.eqb_spec c sep); [exfalso; apply H; now left|].
  rewrite IH by tauto. reflexivity.
Qed.

Lemma before_first_absent (sep : N) (s : jsstring) :
  ~ In sep s -> before_first sep s = s.
Proof.
  induction s as [|c t IH]; simpl; [reflexivity|].
  intros H. destruct (N.eqb_spec c sep); [exfalso; apply H; now left|].
  rewrite IH by tauto. reflexivity.
Qed.

Lemma before_first_no_sep (sep : N) (s : jsstring) :
  ~ In sep (before_first sep s).
Proof.
  induction s as [|c t IH]; simpl; [tauto|].
  destruct (N.eqb_spec c sep); simpl; [tauto|]. intros [?|?]; auto.
Qed.

Lemma existsb_eqb_In (sep : N) (s : jsstring) :
  existsb (N.eqb sep) s = true <-> In sep s.
Proof.
  rewrite existsb_exists. split.
  - intros (x & Hx & E). apply N.eqb_eq in E. now subst.
  - intros H. exists sep. split; [exact H | apply N.eqb_refl].
Qed.

Lemma split_limit_2 (sep : N) (s : jsstring) :
  JS.split_limit sep 2 s
  = if existsb (N.eqb sep) s
    then [before_first sep s; before_first sep (after_first sep s)]
    else [s].
Proof.
  unfold JS.split_limit. rewrite split_first.
  destruct (existsb (N.eqb sep) s) eqn:E.
  - rewrite split_first. reflexivity.
  - simpl. rewrite before_first_absent; [reflexivity|].
    intros H. apply existsb_eqb_In in H. congruence.
Qed.

(* ================================================================== *)
(** * The order of the default sort                                    *)
(* ================================================================== *)

Lemma string_ltb_irrefl (x : jsstring) : JS.string_ltb x x = false.
Proof.
  induction x as [|a x IH]; simpl; [reflexivity|].
  now rewrite N.ltb_irrefl.
Qed.

Lemma string_ltb_trans (x y z : jsstring) :
  JS.string_ltb x y = true -> JS.string_ltb y z = true -> JS.string_ltb x z = true.
Proof.
  revert y z. induction x as [|a x IH]; intros [|b y] [|c z]; simpl;
    try congruence.
  destruct (N.ltb_spec a b), (N.ltb_spec b a), (N.ltb_spec b c),
    (N.ltb_spec c b), (N.ltb_spec a c), (N.ltb_spec c a);
    try congruence; try lia.
  apply IH.
Qed.

Lemma string_ltb_connected (x y : jsstring) :
  JS.string_ltb x y = false -> JS.string_ltb y x = false -> x = y.
Proof.
  revert y. induction x as [|a x IH]; intros [|b y]; simpl;
    try congruence.
  destruct (N.ltb_spec a b), (N.ltb_spec b a); try congruence; try lia.
  intros Hxy Hyx. f_equal; [lia | now apply IH].
Qed.

Lemma string_ltb_asym (x y : jsstring) :
  JS.string_ltb x y = true -> JS.string_ltb y x = false.
Proof.
  intros H. destruct (JS.string_ltb y x) eqn:E; [|reflexivity].
  pose proof (string_ltb_trans _ _ _ H E) as C.
  now rewrite string_ltb_irrefl in C.
Qed.

Lemma string_le_trans (x y z : jsstring) :
  string_le x y -> string_le y z -> string_le x z.
Proof.
  unfold string_le. intros Hxy Hyz.
  destruct (JS.string_ltb z x) eqn:E; [|reflexivity].
  destruct (JS.string_ltb x y) eqn:Exy.
  - pose proof (string_ltb_trans _ _ _ E Exy). congruence.
  - assert (x = y) by now apply string_ltb_connected. subst. congruence.
Qed.

Lemma sort_insert_perm (k : jsstring) (l : list jsstring) :
  Permutation (k :: l) (JS.sort_insert k l).
Proof.
  induction l as [|y l IH]; simpl; [reflexivity|].
  destruct (JS.string_ltb y k); [|reflexivity].
  rewrite perm_swap. now constructor.
Qed.

Lemma sort_perm (l : list jsstring) : Permutation l (JS.sort l).
Proof.
  induction l as [|k l IH]; simpl; [constructor|].
  rewrite <- sort_insert_perm. now constructor.
Qed.

Lemma sort_insert_sorted (k : jsstring) (l : list jsstring) :
  StronglySorted string_le l -> StronglySorted string_le (JS.sort_insert k l).
Proof.
  induction 1 as [|y l Hs IH Hy]; simpl.
  - repeat constructor.
  - destruct (JS.string_ltb y k) eqn:E.
    + constructor; [exact IH|].
      rewrite <- sort_insert_perm. constructor; [|exact Hy].
      now apply string_ltb_asym.
    + constructor; [now constructor|].
      constructor; [exact E|].
      eapply Forall_impl; [|exact Hy]. intros z Hz.
      now apply string_le_trans with y.
Qed.

Lemma sort_sorted (l : list jsstring) : StronglySorted string_le (JS.sort l).
Proof.
  induction l as [|k l IH]; simpl; [constructor|].
  now apply sort_insert_sorted.
Qed.

Lemma sorted_NoDup_strict (l : list jsstring) :
  StronglySorted string_le l -> NoDup l -> StronglySorted string_lt l.
Proof.
  induction 1 as [|y l Hs IH Hy]; intros Hnd; [constructor|].
  inversion Hnd as [|? ? Hin Hnd']; subst.
  constructor; [now apply IH|].
  rewrite Forall_forall in *. intros z Hz.
  unfold string_lt. destruct (JS.string_ltb y z) eqn:E; [reflexivity|].
  assert (y = z) by (apply string_ltb_connected; [exact E | now apply Hy]).
  subst. contradiction.
Qed.

Lemma code_points_no_surrogate (s : jsstring) :
  no_surrogate s = true -> code_points s = s.
Proof.
  induction s as [|c t IH]; simpl; [reflexivity|].
  intros H. apply andb_true_iff in H as [Hc Ht].
  unfold JS.is_leading_surrogate, JS.is_trailing_surrogate.
  unfold JS.is_surrogate in Hc.
  assert (E : negb ((0xD800 <=? c) && (c <=? 0xDBFF))
              && negb ((0xDC00 <=? c) && (c <=? 0xDFFF)) = true).
  { destruct (N.leb_spec 0xD800 c), (N.leb_spec c 0xDBFF),
      (N.leb_spec 0xDC00 c), (N.leb_spec c 0xDFFF); simpl in *;
      try reflexivity; try discriminate; lia. }
  rewrite E. simpl. now rewrite IH.
Qed.

(* ================================================================== *)
(** * sort                                                             *)
(* ================================================================== *)

Lemma Map_get_In (k : jsstring) (v : pvalue) (m : Map) :
  Map_ok m -> In (k, v) m -> Map_get k m = Some v.
Proof.
  unfold Map_ok. induction m as [|[k0 w] m IH]; simpl; [tauto|].
  intros Hnd. inversion Hnd as [|? ? Hin Hnd']; subst.
  intros [[= -> ->]|H].
  - now rewrite string_eqb_refl.
  - string_cases k0 k.
    + exfalso. apply Hin. apply in_map_iff. now exists (k, v).
    + now apply IH.
Qed.

Lemma Map_get_perm (k : jsstring) (m m' : Map) :
  Map_ok m -> Permutation m m' -> Map_get k m' = Map_get k m.
Proof.
  intros Hok Hp.
  assert (Hok' : Map_ok m').
  { unfold Map_ok, Map_keys in *. eapply Permutation_NoDup; [|exact Hok].
    now apply Permutation_map. }
  destruct (Map_get k m) as [v|] eqn:E.
  - apply Map_get_In; [exact Hok'|].
    eapply Permutation_in; [exact Hp|]. now apply Map_get_Some_In.
  - apply Map_get_None. apply Map_get_None in E. intros H. apply E.
    unfold Map_keys in *. eapply Permutation_in; [|exact H].
    apply Permutation_map. now symmetry.
Qed.

(** The loop of [sort] over keys that are all different and all present
    builds the Map of these keys, in their order. *)
Lemma sort_loop (m l acc : Map) :
  NoDup (Map_keys (acc ++ l)) ->
  (forall k v, In (k, v) l -> Map_get k m = Some v) ->
  fold_left (fun (sorted : Map) k =>
               match Map_get k m with
               | Some v => Map_set k v sorted
               | None => sorted
               end) (Map_keys l) acc
  = acc ++ l.
Proof.
  revert acc. induction l as [|[k v] l IH]; intros acc Hnd Hget; simpl.
  - now rewrite app_nil_r.
  - rewrite (Hget k v) by now left.
    rewrite Map_set_absent.
    + rewrite IH.
      * now rewrite <- app_assoc.
      * now rewrite <- app_assoc.
      * intros k' v' H. apply Hget. now right.
    + apply Map_get_None. unfold Map_keys in *.
      rewrite map_app in Hnd. simpl in Hnd.
      apply NoDup_remove_2 in Hnd. intros H. apply Hnd.
      apply in_or_app. now left.
Qed.

(** What [sort] leaves in [params]: the entries of the Map, rearranged so
    that the keys are the sorted keys. *)
Lemma sort_params (s : SearchParams) :
  Map_ok (params s) ->
  Permutation (params s) (params (sort s))
  /\ Map_keys (params (sort s)) = JS.sort (Map_keys (params s)).
Proof.
  intros Hok. unfold sort. simpl.
  pose proof (sort_perm (Map_keys (params s))) as Hp.
  symmetry in Hp. unfold Map_keys in Hp at 2.
  apply Permutation_map_inv in Hp as (l & Hl & Hpl).
  rewrite Hl. change (map fst l) with (Map_keys l).
  rewrite (sort_loop (params s) l []).
  - simpl. split; [exact Hpl | reflexivity].
  - simpl. unfold Map_ok, Map_keys in *.
    eapply Permutation_NoDup; [|exact Hok]. now apply Permutation_map.
  - intros k v H. apply Map_get_In; [exact Hok|].
    eapply Permutation_in; [|exact H]. now symmetry.
Qed.

Lemma Map_ok_sort (s : SearchParams) :
  Map_ok (params s) -> Map_ok (params (sort s)).
Proof.
  intros Hok. destruct (sort_params s Hok) as [Hp _].
  unfold Map_ok, Map_keys in *. eapply Permutation_NoDup; [|exact Hok].
  now apply Permutation_map.
Qed.

Lemma recorded_absent (k : jsstring) (m : Map) (o : jsstring) :
  ~ In k (Map_keys m) -> recorded k {| params := m; original := o |} = [].
Proof.
  intros H. unfold recorded.
  assert (E : filter (fun e => string_eqb (fst e) k)
                (entries {| params := m; original := o |}) = []).
  { pose proof (other_entries_absent k m o H) as Ho.
    unfold other_entries in Ho.
    induction (entries {| params := m; original := o |}) as [|e l IH];
      simpl in *; [reflexivity|].
    destruct (string_eqb (fst e) k); simpl in *.
    - exfalso. assert (Hlen := f_equal (@List.length _) Ho). simpl in Hlen.
      pose proof (filter_length_le (fun e => negb (string_eqb (fst e) k)) l).
      lia.
    - injection Ho as Ho. now apply IH. }
  now rewrite E.
Qed.

Lemma filter_key_same (k : jsstring) (a : list jsstring) :
  filter (fun e => string_eqb (fst e) k) (map (fun inner => (k, inner)) a)
  = map (fun inner => (k, inner)) a.
Proof.
  induction a as [|y a IHa]; simpl; [reflexivity|].
  rewrite string_eqb_refl. now rewrite IHa.
Qed.

Lemma filter_key_other (k0 k : jsstring) (a : list jsstring) :
  string_eqb k0 k = false ->
  filter (fun e => string_eqb (fst e) k) (map (fun inner => (k0, inner)) a) = [].
Proof.
  intros E. induction a as [|y a IHa]; simpl; [reflexivity|].
  rewrite E. exact IHa.
Qed.

(** The values [entries] yields for a key are the value the Map holds for
    it. *)
Lemma recorded_Map_get (k : jsstring) (s : SearchParams) :
  Map_ok (params s) ->
  recorded k s
  = match Map_get k (params s) with
    | Some (PStr x) => [x]
    | Some (PArr a) => a
    | None => []
    end.
Proof.
  destruct s as [m o]. simpl. unfold Map_ok.
  induction m as [|[k0 w] m IH]; intros Hnd; [reflexivity|].
  inversion Hnd as [|? ? Hin Hnd']; subst.
  change ((k0, w) :: m) with ([(k0, w)] ++ m).
  unfold recorded. rewrite entries_app, filter_app, map_app.
  fold (recorded k {| params := m; original := o |}).
  simpl Map_get. string_cases k0 k.
  - rewrite recorded_absent by exact Hin. rewrite app_nil_r.
    unfold entries. simpl. rewrite app_nil_r.
    destruct w as [x|a]; simpl.
    + now rewrite string_eqb_refl.
    + rewrite filter_key_same, map_map. simpl. apply map_id.
  - rewrite IH by exact Hnd'.
    assert (Ef : filter (fun e => string_eqb (fst e) k)
                   (entries {| params := [(k0, w)]; original := o |}) = []).
    { unfold entries. simpl. rewrite app_nil_r.
      destruct w as [x|a]; simpl; [now rewrite E|].
      now apply filter_key_other. }
    now rewrite Ef.
Qed.

(** [getAll] returns the values recorded for the key, unless the key holds
    the empty string alone. *)
Lemma getAll_recorded (k : jsstring) (s : SearchParams) :
  Map_ok (params s) ->
  Map_get k (params s) <> Some (PStr []) ->
  getAll k s = recorded k s.
Proof.
  intros Hok Hne. rewrite (recorded_Map_get k s Hok). unfold getAll.
  destruct (Map_get k (params s)) as [[[|c x]|a]|]; try reflexivity.
  now destruct Hne.
Qed.

(** C5, as the code has it.  After [sort()] the top-level keys are in
    strictly ascending order of their UTF-16 code units, which is the
    code-point order when no key holds a surrogate; the values recorded for
    every key are the same, in the same order; and the entries are a
    rearrangement of the entries before. *)
Theorem sort_orders_keys_by_code_units (s : SearchParams) :
  Map_ok (params s) ->
  StronglySorted string_lt (Map_keys (params (sort s)))
  /\ (forall k, recorded k (sort s) = recorded k s)
  /\ Permutation (entries s) (entries (sort s))
  /\ (Forall (fun k => no_surrogate k = true) (Map_keys (params s)) ->
      StronglySorted code_point_lt (Map_keys (params (sort s)))).
Proof.
  intros Hok. destruct (sort_params s Hok) as [Hp Hk].
  assert (Hss : StronglySorted string_lt (Map_keys (params (sort s)))).
  { rewrite Hk. apply sorted_NoDup_strict; [apply sort_sorted|].
    eapply Permutation_NoDup; [apply sort_perm | exact Hok]. }
  split; [exact Hss|]. split; [|split].
  - intros k. rewrite !recorded_Map_get by (trivial; now apply Map_ok_sort).
    now rewrite (Map_get_perm k _ _ Hok Hp).
  - unfold entries. now apply Permutation_flat_map.
  - intros Hns.
    assert (Hns' : Forall (fun k => no_surrogate k = true) (Map_keys (params (sort s)))).
    { rewrite Hk. eapply Permutation_Forall; [apply sort_perm | exact Hns]. }
    clear -Hss Hns'. induction Hss as [|k l Hs IH Hk]; [constructor|].
    inversion Hns' as [|? ? Hk0 Hl]; subst.
    constructor; [now apply IH|].
    rewrite Forall_forall in *. intros z Hz.
    unfold code_point_lt. rewrite !code_points_no_surrogate; auto.
    now apply Hk.
Qed.

Lemma sort_orders_keys_by_code_units_witness :
  exists s,
    constructed (js "b=2&b=1&c=3&a=4") s
    /\ entries (sort s)
       = [(js "a", js "4"); (js "b", js "2"); (js "b", js "1"); (js "c", js "3")]
    /\ StronglySorted string_lt (Map_keys (params (sort s)))
    /\ (forall k, recorded k (sort s) = recorded k s)
    /\ Permutation (entries s) (entries (sort s)).
Proof.
  eexists. split; [vm_compute; reflexivity|]. split; [reflexivity|].
  match goal with
  | |- context [sort ?s] =>
      destruct (sort_orders_keys_by_code_units s) as (H1 & H2 & H3 & _)
  end.
  - vm_compute. repeat constructor; simpl; intuition discriminate.
  - repeat split; assumption.
Defined.

(** C5 with code-point order fails on the store parsed from the keys
    U+FF5E and U+1F600 (the surrogate pair D83D DE00): [sort()] puts the
    pair first, because its first code unit D83D is below FF5E, while in
    code-point order U+FF5E comes before U+1F600. *)
Lemma sort_is_not_code_point_order :
  exists s,
    constructed ([0xFF5E] ++ js "=1&" ++ [0xD83D; 0xDE00] ++ js "=2") s
    /\ Map_keys (params (sort s)) = [[0xD83D; 0xDE00]; [0xFF5E]]
    /\ code_points [0xD83D; 0xDE00] = [0x1F600]
    /\ code_points [0xFF5E] = [0xFF5E]
    /\ code_point_lt [0xFF5E] [0xD83D; 0xDE00]
    /\ (StronglySorted code_point_lt (Map_keys (params (sort s))) -> False).
Proof.
  eexists. split; [vm_compute; reflexivity|].
  repeat split.
  intros H. apply StronglySorted_inv in H as [_ H].
  apply Forall_inv in H. vm_compute in H. discriminate.
Qed.

(* ================================================================== *)
(** * Octets, hexadecimal digits and leading bits                      *)
(* ================================================================== *)

#[local] Arguments N.add : simpl never.
#[local] Arguments N.sub : simpl never.
#[local] Arguments N.mul : simpl never.
#[local] Arguments N.div : simpl never.
#[local] Arguments N.modulo : simpl never.

Lemma hex_value_hex_digit (d : N) : d < 16 -> JS.hex_value (JS.hex_digit d) = Some d.
Proof.
  intros H. unfold JS.hex_digit, JS.hex_value.
  destruct (N.ltb_spec d 10).
  - replace (48 <=? 48 + d) with true by (symmetry; apply N.leb_le; lia).
    replace (48 + d <=? 57) with true by (symmetry; apply N.leb_le; lia).
    simpl. f_equal. lia.
  - replace (48 <=? 55 + d) with true by (symmetry; apply N.leb_le; lia).
    replace (55 + d <=? 57) with false by (symmetry; apply N.leb_gt; lia).
    replace (65 <=? 55 + d) with true by (symmetry; apply N.leb_le; lia).
    replace (55 + d <=? 70) with true by (symmetry; apply N.leb_le; lia).
    simpl. f_equal. lia.
Qed.

Lemma hex_value_bound (c d : N) : JS.hex_value c = Some d -> d < 16.
Proof.
  unfold JS.hex_value.
  destruct (N.leb_spec 48 c), (N.leb_spec c 57), (N.leb_spec 65 c),
    (N.leb_spec c 70), (N.leb_spec 97 c), (N.leb_spec c 102); simpl;
    intros [= <-]; lia.
Qed.

(** A hexadecimal digit is neither the percent sign nor the plus sign. *)
Lemma hex_value_unit (c d : N) :
  JS.hex_value c = Some d -> c <> JS.PERCENT /\ c <> JS.PLUS.
Proof.
  unfold JS.hex_value, JS.PERCENT, JS.PLUS.
  destruct (N.leb_spec 48 c), (N.leb_spec c 57), (N.leb_spec 65 c),
    (N.leb_spec c 70), (N.leb_spec 97 c), (N.leb_spec c 102); simpl;
    intros [= <-]; lia.
Qed.

Lemma ParseHexOctet_bound (s : jsstring) (B : N) :
  JS.ParseHexOctet s = Some B -> B < 256.
Proof.
  destruct s as [|h1 [|h2 t]]; simpl; try discriminate.
  destruct (JS.hex_value h1) as [a|] eqn:Ea; [|discriminate].
  destruct (JS.hex_value h2) as [b|] eqn:Eb; [|discriminate].
  apply hex_value_bound in Ea, Eb. intros [= <-]. lia.
Qed.

Lemma ParseHexOctet_escape (B : N) (t : jsstring) :
  B < 256 ->
  JS.ParseHexOctet (JS.hex_digit (B / 16) :: JS.hex_digit (B mod 16) :: t) = Some B.
Proof.
  intros H. unfold JS.ParseHexOctet.
  rewrite !hex_value_hex_digit by lia. f_equal. lia.
Qed.

Lemma escapes_escape_octets (Octets : list N) :
  Forall (fun B => B < 256) Octets -> escapes Octets (JS.escape_octets Octets).
Proof.
  induction 1 as [|B Bs HB _ IH]; simpl; [constructor|].
  constructor; [now apply ParseHexOctet_escape | exact IH].
Qed.

Lemma octet_cases (P : N -> bool) :
  forallb P (map N.of_nat (seq 0 256)) = true ->
  forall B, B < 256 -> P B = true.
Proof.
  intros H B HB. rewrite forallb_forall in H. apply H.
  apply in_map_iff. exists (N.to_nat B). split; [apply N2Nat.id|].
  apply in_seq. lia.
Qed.

Lemma leading_ones_range (B : N) :
  B < 256 -> JS.leading_ones B = leading_ones_by_range B.
Proof.
  intros H. apply Nat.eqb_eq.
  apply (octet_cases (fun B => Nat.eqb (JS.leading_ones B) (leading_ones_by_range B)));
    [vm_compute; reflexivity | exact H].
Qed.

(* ================================================================== *)
(** * The loop of Decode                                               *)
(* ================================================================== *)

Lemma read_escape_Normal (s t : jsstring) (B : N) :
  JS.read_escape s = Normal (B, t) <->
  exists h1 h2,
    s = JS.PERCENT :: h1 :: h2 :: t /\ JS.ParseHexOctet [h1; h2] = Some B.
Proof.
  split.
  - destruct s as [|p [|h1 [|h2 t']]]; simpl; try discriminate.
    destruct (N.eqb_spec p JS.PERCENT); [|discriminate]. subst.
    destruct (JS.hex_value h1) as [a|] eqn:Ea; [|discriminate].
    destruct (JS.hex_value h2) as [b|] eqn:Eb; [|discriminate].
    intros [= <- <-]. exists h1, h2. simpl. now rewrite Ea, Eb.
  - intros (h1 & h2 & -> & H). simpl in *.
    destruct (JS.hex_value h1) as [a|]; [|discriminate].
    destruct (JS.hex_value h2) as [b|]; [|discriminate].
    now injection H as <-.
Qed.

Lemma read_continuations_Normal (j : nat) (s t : jsstring) (Bs : list N) :
  JS.read_continuations j s = Normal (Bs, t) <->
  exists e, s = e ++ t /\ escapes Bs e /\ List.length Bs = j.
Proof.
  revert s Bs. induction j as [|j IH]; intros s Bs; simpl.
  - split.
    + intros [= <- <-]. exists []. repeat split. constructor.
    + intros (e & -> & He & Hl). destruct Bs; [|discriminate].
      inversion He; subst. reflexivity.
  - split.
    + intros H. apply bind_Normal in H as ([B s'] & Hr & H).
      cbv zeta in H. apply bind_Normal in H as ([Bs' s''] & Hc & [= <- <-]).
      apply read_escape_Normal in Hr as (h1 & h2 & -> & Hh).
      apply IH in Hc as (e & -> & He & Hl).
      exists (JS.PERCENT :: h1 :: h2 :: e). repeat split.
      * now constructor.
      * simpl. now rewrite Hl.
    + intros (e & -> & He & Hl).
      destruct He as [|B Bs' h1 h2 e Hh He]; [discriminate|].
      injection Hl as Hl.
      assert (Hr : JS.read_escape ((JS.PERCENT :: h1 :: h2 :: e) ++ t)
                   = Normal (B, e ++ t)).
      { apply read_escape_Normal. now exists h1, h2. }
      rewrite Hr. simpl.
      assert (Hc : JS.read_continuations j (e ++ t) = Normal (Bs', t)).
      { apply IH. now exists e. }
      rewrite Hc. reflexivity.
Qed.

Lemma escapes_length (Octets : list N) (e : jsstring) :
  escapes Octets e -> List.length e = (3 * List.length Octets)%nat.
Proof. induction 1; simpl; lia. Qed.

(** A turn of the loop consumes at least one code unit. *)
Lemma Decode_step_shorter (s piece rest : jsstring) :
  s <> [] -> JS.Decode_step s = Normal (piece, rest) ->
  (List.length rest < List.length s)%nat.
Proof.
  destruct s as [|C t]; [congruence|]. intros _. unfold JS.Decode_step.
  destruct (negb (C =? JS.PERCENT)).
  - intros [= <- <-]. simpl. lia.
  - intros H. apply bind_Normal in H as ([B t1] & Hr & H). cbv zeta in H.
    apply read_escape_Normal in Hr as (h1 & h2 & E & Hh).
    rewrite E. clear E.
    destruct (JS.leading_ones B) as [|[|n]].
    + injection H as <- <-. simpl. lia.
    + discriminate.
    + destruct (4 <? S (S n))%nat; [discriminate|].
      apply bind_Normal in H as ([Bs t2] & Hc & H). cbv zeta in H.
      apply read_continuations_Normal in Hc as (e & -> & He & Hl).
      destruct (JS.UTF8Decode (B :: Bs)); [|discriminate].
      injection H as <- <-. simpl. rewrite length_app. lia.
Qed.

Lemma Decode_loop_S (fuel : nat) (C : N) (t : jsstring) :
  JS.Decode_loop (S fuel) (C :: t)
  = match JS.Decode_step (C :: t) with
    | Throw e => Some (Throw e)
    | Normal (piece, rest) =>
        match JS.Decode_loop fuel rest with
        | Some (Normal R) => Some (Normal (piece ++ R))
        | other => other
        end
    end.
Proof. reflexivity. Qed.

Lemma Decode_loop_enough (fuel : nat) (s : jsstring) :
  (List.length s <= fuel)%nat -> exists r, JS.Decode_loop fuel s = Some r.
Proof.
  revert s. induction fuel as [|fuel IH]; intros s Hl.
  - destruct s; [|simpl in Hl; lia]. now exists (Normal []).
  - destruct s as [|C t]; [now exists (Normal [])|].
    rewrite Decode_loop_S.
    destruct (JS.Decode_step (C :: t)) as [[piece rest]|e] eqn:Es;
      [|now exists (Throw e)].
    apply Decode_step_shorter in Es; [|discriminate].
    destruct (IH rest) as [r Hr]; [simpl in *; lia|].
    rewrite Hr. destruct r; eauto.
Qed.

Lemma Decode_loop_more (fuel fuel' : nat) (s : jsstring) (r : completion jsstring) :
  JS.Decode_loop fuel s = Some r -> (fuel <= fuel')%nat ->
  JS.Decode_loop fuel' s = Some r.
Proof.
  revert fuel' s r. induction fuel as [|fuel IH]; intros fuel' s r.
  - destruct s; simpl; [|discriminate]. intros [= <-] _. now destruct fuel'.
  - destruct s as [|C t]; [intros [= <-] _; now destruct fuel'|].
    intros H Hle. destruct fuel' as [|fuel']; [lia|].
    rewrite Decode_loop_S in *.
    destruct (JS.Decode_step (C :: t)) as [[piece rest]|e]; [|exact H].
    destruct (JS.Decode_loop fuel rest) as [r'|] eqn:Er; [|discriminate].
    rewrite (IH fuel' rest r' Er) by lia. exact H.
Qed.

(** The loop as an equation: the result of [decodeURIComponent] on a string
    that is not empty is the text of the first turn followed by the result
    on the rest. *)
Lemma decodeURIComponent_nil : JS.decodeURIComponent [] = Normal [].
Proof. reflexivity. Qed.

Lemma decodeURIComponent_step (s : jsstring) :
  s <> [] ->
  JS.decodeURIComponent s
  = ('(piece, rest) <- JS.Decode_step s ;;
     R <- JS.decodeURIComponent rest ;;
     Normal (piece ++ R)).
Proof.
  intros Hs. unfold JS.decodeURIComponent.
  destruct s as [|C t]; [congruence|].
  change (List.length (C :: t)) with (S (List.length t)).
  rewrite Decode_loop_S.
  destruct (JS.Decode_step (C :: t)) as [[piece rest]|e] eqn:Es; [|reflexivity].
  simpl. apply Decode_step_shorter in Es; [|discriminate].
  destruct (Decode_loop_enough (List.length rest) rest (le_n _)) as [r Hr].
  rewrite Hr.
  rewrite (Decode_loop_more _ (List.length t) _ _ Hr) by (simpl in Es; lia).
  now destruct r.
Qed.

(** [decodeURIComponent] returns or throws: its loop is never cut short. *)
Lemma decodeURIComponent_total (s : jsstring) :
  JS.Decode_loop (List.length s) s = Some (JS.decodeURIComponent s).
Proof.
  unfold JS.decodeURIComponent.
  destruct (Decode_loop_enough (List.length s) s (le_n _)) as [r Hr].
  now rewrite Hr.
Qed.

(* ================================================================== *)
(** * Decoding the escapes of a scalar value                           *)
(* ================================================================== *)

Ltac bool_true :=
  repeat (apply andb_true_iff; split);
  first [apply N.leb_le | apply N.ltb_lt | apply negb_true_iff]; try lia.

Lemma Decode_step_percent (t : jsstring) :
  JS.Decode_step (JS.PERCENT :: t)
  = ('(B, t1) <- JS.read_escape (JS.PERCENT :: t) ;;
     match JS.leading_ones B with
     | 0%nat => Normal ([B], t1)
     | 1%nat => Throw URIError
     | S n' =>
         if (4 <? S n')%nat then Throw URIError
         else
           '(Bs, t2) <- JS.read_continuations n' t1 ;;
           match JS.UTF8Decode (B :: Bs) with
           | None => Throw URIError
           | Some V => Normal (JS.UTF16EncodeCodePoint V, t2)
           end
     end).
Proof. reflexivity. Qed.

Lemma Decode_step_literal (C : N) (t : jsstring) :
  C <> JS.PERCENT -> JS.Decode_step (C :: t) = Normal ([C], t).
Proof.
  intros H. unfold JS.Decode_step.
  now replace (C =? JS.PERCENT) with false by (symmetry; now apply N.eqb_neq).
Qed.

Lemma Decode_step_single (B : N) (e rest : jsstring) :
  escapes [B] e -> JS.leading_ones B = 0%nat ->
  JS.Decode_step (e ++ rest) = Normal ([B], rest).
Proof.
  intros He Hn. inversion He as [|? ? h1 h2 e' Hh He']; subst.
  inversion He'; subst.
  simpl app. rewrite Decode_step_percent.
  assert (Hr : JS.read_escape (JS.PERCENT :: h1 :: h2 :: rest) = Normal (B, rest)).
  { apply read_escape_Normal. now exists h1, h2. }
  rewrite Hr. cbv beta iota zeta delta [bind]. now rewrite Hn.
Qed.

Lemma Decode_step_multi (B : N) (Bs : list N) (e rest : jsstring) (V : N) :
  escapes (B :: Bs) e ->
  JS.leading_ones B = S (List.length Bs) ->
  (1 <= List.length Bs <= 3)%nat ->
  JS.UTF8Decode (B :: Bs) = Some V ->
  JS.Decode_step (e ++ rest) = Normal (JS.UTF16EncodeCodePoint V, rest).
Proof.
  intros He Hn Hl HV. inversion He as [|? ? h1 h2 e' Hh He']; subst.
  simpl app. rewrite Decode_step_percent.
  assert (Hr : JS.read_escape (JS.PERCENT :: h1 :: h2 :: e' ++ rest)
               = Normal (B, e' ++ rest)).
  { apply read_escape_Normal. now exists h1, h2. }
  rewrite Hr. cbv beta iota zeta delta [bind]. rewrite Hn.
  destruct (List.length Bs) as [|n] eqn:El; [lia|].
  replace (4 <? S (S n))%nat with false by (symmetry; apply Nat.ltb_ge; lia).
  assert (Hc : JS.read_continuations (S n) (e' ++ rest) = Normal (Bs, rest)).
  { apply read_continuations_Normal. now exists e'. }
  rewrite Hc. cbv beta iota zeta delta [bind]. now rewrite HV.
Qed.

Lemma UTF8Encode_octets (cp : N) :
  cp <= 0x10FFFF -> Forall (fun B => B < 256) (JS.UTF8Encode cp).
Proof.
  intros H. unfold JS.UTF8Encode.
  destruct (N.ltb_spec cp 0x80); [repeat constructor; lia|].
  destruct (N.ltb_spec cp 0x800); [repeat constructor; lia|].
  destruct (N.ltb_spec cp 0x10000); repeat constructor; lia.
Qed.

Lemma UTF8Encode_not_nil (cp : N) : JS.UTF8Encode cp <> [].
Proof.
  unfold JS.UTF8Encode.
  destruct (cp <? 0x80), (cp <? 0x800), (cp <? 0x10000); discriminate.
Qed.

Lemma leading_ones_is (B : N) (n : nat) :
  B < 256 -> leading_ones_by_range B = n -> JS.leading_ones B = n.
Proof. intros H <-. now apply leading_ones_range. Qed.

(** The octets of the UTF-8 encoding of a scalar value, read back. *)
Lemma Decode_step_scalar (cp : N) (e rest : jsstring) :
  scalar_value cp -> escapes (JS.UTF8Encode cp) e ->
  JS.Decode_step (e ++ rest) = Normal (JS.UTF16EncodeCodePoint cp, rest).
Proof.
  intros [Hmax Hsur]. unfold JS.UTF8Encode.
  destruct (N.ltb_spec cp 0x80) as [H1|H1].
  { intros He. rewrite (Decode_step_single cp e rest He).
    - unfold JS.UTF16EncodeCodePoint.
      now replace (cp <=? 0xFFFF) with true by (symmetry; apply N.leb_le; lia).
    - apply leading_ones_is; [lia|]. unfold leading_ones_by_range.
      now replace (cp <? 0x80) with true by (symmetry; apply N.ltb_lt; lia). }
  destruct (N.ltb_spec cp 0x800) as [H2|H2].
  { intros He. apply (Decode_step_multi _ _ _ _ _ He); [|simpl; lia|].
    - apply leading_ones_is; [lia|]. unfold leading_ones_by_range.
      replace (0xC0 + cp / 64 <? 0x80) with false by (symmetry; apply N.ltb_ge; lia).
      replace (0xC0 + cp / 64 <? 0xC0) with false by (symmetry; apply N.ltb_ge; lia).
      now replace (0xC0 + cp / 64 <? 0xE0) with true by (symmetry; apply N.ltb_lt; lia).
    - unfold JS.UTF8Decode.
      assert (EV : (0xC0 + cp / 64) mod 32 * 64 + (0x80 + cp mod 64) mod 64 = cp) by lia.
      rewrite EV.
      replace (JS.is_continuation (0x80 + cp mod 64) && (0x80 <=? cp)) with true;
        [reflexivity|].
      symmetry. unfold JS.is_continuation. bool_true. }
  unfold JS.is_surrogate in Hsur.
  assert (Hs : cp < 0xD800 \/ 0xDFFF < cp).
  { destruct (N.leb_spec 0xD800 cp), (N.leb_spec cp 0xDFFF); simpl in Hsur;
      try discriminate; lia. }
  destruct (N.ltb_spec cp 0x10000) as [H3|H3].
  { intros He. apply (Decode_step_multi _ _ _ _ _ He); [|simpl; lia|].
    - apply leading_ones_is; [lia|]. unfold leading_ones_by_range.
      replace (0xE0 + cp / 4096 <? 0x80) with false by (symmetry; apply N.ltb_ge; lia).
      replace (0xE0 + cp / 4096 <? 0xC0) with false by (symmetry; apply N.ltb_ge; lia).
      replace (0xE0 + cp / 4096 <? 0xE0) with false by (symmetry; apply N.ltb_ge; lia).
      now replace (0xE0 + cp / 4096 <? 0xF0) with true by (symmetry; apply N.ltb_lt; lia).
    - unfold JS.UTF8Decode.
      assert (EV : (0xE0 + cp / 4096) mod 16 * 4096
                   + (0x80 + (cp / 64) mod 64) mod 64 * 64
                   + (0x80 + cp mod 64) mod 64 = cp) by lia.
      rewrite EV.
      replace (JS.is_continuation (0x80 + (cp / 64) mod 64)
               && JS.is_continuation (0x80 + cp mod 64)
               && (0x800 <=? cp) && negb (JS.is_surrogate cp)) with true;
        [reflexivity|].
      symmetry. unfold JS.is_continuation, JS.is_surrogate. bool_true.
      apply andb_false_iff. destruct Hs; [left; apply N.leb_gt | right; apply N.leb_gt]; lia. }
  intros He. apply (Decode_step_multi _ _ _ _ _ He); [|simpl; lia|].
  - apply leading_ones_is; [lia|]. unfold leading_ones_by_range.
    replace (0xF0 + cp / 262144 <? 0x80) with false by (symmetry; apply N.ltb_ge; lia).
    replace (0xF0 + cp / 262144 <? 0xC0) with false by (symmetry; apply N.ltb_ge; lia).
    replace (0xF0 + cp / 262144 <? 0xE0) with false by (symmetry; apply N.ltb_ge; lia).
    replace (0xF0 + cp / 262144 <? 0xF0) with false by (symmetry; apply N.ltb_ge; lia).
    now replace (0xF0 + cp / 262144 <? 0xF8) with true by (symmetry; apply N.ltb_lt; lia).
  - unfold JS.UTF8Decode.
    assert (EV : (0xF0 + cp / 262144) mod 8 * 262144
                 + (0x80 + (cp / 4096) mod 64) mod 64 * 4096
                 + (0x80 + (cp / 64) mod 64) mod 64 * 64
                 + (0x80 + cp mod 64) mod 64 = cp) by lia.
    rewrite EV.
    replace (JS.is_continuation (0x80 + (cp / 4096) mod 64)
             && JS.is_continuation (0x80 + (cp / 64) mod 64)
             && JS.is_continuation (0x80 + cp mod 64)
             && (0x10000 <=? cp) && (cp <=? 0x10FFFF)) with true;
      [reflexivity|].
    symmetry. unfold JS.is_continuation. bool_true.
Qed.

Lemma decode_after_literal (C : N) (R : jsstring) :
  C <> JS.PERCENT ->
  JS.decodeURIComponent (C :: R)
  = (R' <- JS.decodeURIComponent R ;; Normal (C :: R')).
Proof.
  intros H. rewrite decodeURIComponent_step by discriminate.
  now rewrite Decode_step_literal.
Qed.

Lemma escapes_not_nil (B : N) (Octets : list N) (e : jsstring) :
  escapes (B :: Octets) e -> e <> [].
Proof. inversion 1. discriminate. Qed.

Lemma decode_after_scalar (cp : N) (e R : jsstring) :
  scalar_value cp -> escapes (JS.UTF8Encode cp) e ->
  JS.decodeURIComponent (e ++ R)
  = (R' <- JS.decodeURIComponent R ;; Normal (JS.UTF16EncodeCodePoint cp ++ R')).
Proof.
  intros Hcp He. rewrite decodeURIComponent_step.
  - now rewrite (Decode_step_scalar cp e R Hcp He).
  - destruct (JS.UTF8Encode cp) as [|B Bs] eqn:E.
    + now apply UTF8Encode_not_nil in E.
    + apply escapes_not_nil in He. destruct e; [congruence | discriminate].
Qed.

(* ================================================================== *)
(** * encodeURIComponent on well-formed strings, and back              *)
(* ================================================================== *)

Lemma uriUnreserved_ascii (C : N) :
  JS.uriUnreserved C = true -> C <> JS.PERCENT /\ C <= 126.
Proof.
  unfold JS.uriUnreserved, JS.PERCENT. cbn [existsb].
  rewrite !orb_true_iff, !andb_true_iff, !N.leb_le, !N.eqb_eq. lia.
Qed.

Lemma surrogate_split (C : N) :
  JS.is_surrogate C = JS.is_leading_surrogate C || JS.is_trailing_surrogate C.
Proof.
  unfold JS.is_surrogate, JS.is_leading_surrogate, JS.is_trailing_surrogate.
  destruct (N.leb_spec 0xD800 C), (N.leb_spec C 0xDBFF),
    (N.leb_spec 0xDC00 C), (N.leb_spec C 0xDFFF); simpl; try reflexivity; lia.
Qed.

Lemma leading_not_trailing (C : N) :
  JS.is_leading_surrogate C = true -> JS.is_trailing_surrogate C = false.
Proof.
  unfold JS.is_leading_surrogate, JS.is_trailing_surrogate.
  destruct (N.leb_spec 0xD800 C), (N.leb_spec C 0xDBFF),
    (N.leb_spec 0xDC00 C), (N.leb_spec C 0xDFFF); simpl; try congruence; lia.
Qed.

Lemma CodePointAt_single (C : N) (t : jsstring) :
  JS.is_leading_surrogate C = false -> JS.is_trailing_surrogate C = false ->
  JS.CodePointAt (C :: t)
  = {| JS.CodePoint := C; JS.CodeUnitCount := 1; JS.IsUnpairedSurrogate := false |}.
Proof. intros H1 H2. unfold JS.CodePointAt. now rewrite H1, H2. Qed.

Lemma CodePointAt_pair (C c2 : N) (t : jsstring) :
  JS.is_leading_surrogate C = true -> JS.is_trailing_surrogate c2 = true ->
  JS.CodePointAt (C :: c2 :: t)
  = {| JS.CodePoint := JS.UTF16SurrogatePairToCodePoint C c2;
       JS.CodeUnitCount := 2; JS.IsUnpairedSurrogate := false |}.
Proof.
  intros H1 H2. unfold JS.CodePointAt.
  now rewrite H1, (leading_not_trailing C H1), H2.
Qed.

Lemma Encode_unreserved (C : N) (t : jsstring) :
  JS.uriUnreserved C = true ->
  JS.Encode (C :: t) = (R <- JS.Encode t ;; Normal (C :: R)).
Proof. intros H. rewrite Encode_cons. now rewrite H. Qed.

Lemma Encode_single (C : N) (t : jsstring) :
  JS.uriUnreserved C = false ->
  JS.is_leading_surrogate C = false -> JS.is_trailing_surrogate C = false ->
  JS.Encode (C :: t)
  = (R <- JS.Encode t ;; Normal (JS.escape_octets (JS.UTF8Encode C) ++ R)).
Proof.
  intros H H1 H2. rewrite Encode_cons, H.
  rewrite (CodePointAt_single C t H1 H2). reflexivity.
Qed.

Lemma Encode_pair (C c2 : N) (t : jsstring) :
  JS.uriUnreserved C = false ->
  JS.is_leading_surrogate C = true -> JS.is_trailing_surrogate c2 = true ->
  JS.Encode (C :: c2 :: t)
  = (R <- JS.Encode t ;;
     Normal (JS.escape_octets (JS.UTF8Encode (JS.UTF16SurrogatePairToCodePoint C c2)) ++ R)).
Proof.
  intros H H1 H2. rewrite Encode_cons, H.
  rewrite (CodePointAt_pair C c2 t H1 H2). reflexivity.
Qed.

Lemma UTF16Encode_unit (C : N) :
  C < 0x10000 -> JS.UTF16EncodeCodePoint C = [C].
Proof.
  intros H. unfold JS.UTF16EncodeCodePoint.
  now replace (C <=? 0xFFFF) with true by (symmetry; apply N.leb_le; lia).
Qed.

Lemma surrogate_pair_scalar (C c2 : N) :
  JS.is_leading_surrogate C = true -> JS.is_trailing_surrogate c2 = true ->
  scalar_value (JS.UTF16SurrogatePairToCodePoint C c2)
  /\ JS.UTF16EncodeCodePoint (JS.UTF16SurrogatePairToCodePoint C c2) = [C; c2].
Proof.
  unfold JS.is_leading_surrogate, JS.is_trailing_surrogate.
  rewrite !andb_true_iff, !N.leb_le. intros [H1 H2] [H3 H4].
  unfold scalar_value, JS.UTF16SurrogatePairToCodePoint, JS.is_surrogate,
    JS.UTF16EncodeCodePoint.
  split; [split; [lia|]|].
  - apply andb_false_iff. right. apply N.leb_gt. lia.
  - replace (_ <=? 0xFFFF) with false by (symmetry; apply N.leb_gt; lia).
    f_equal; [lia | f_equal; lia].
Qed.

Lemma well_formed_unicode_cons (c : N) (t : jsstring) :
  well_formed_unicode (c :: t)
  = if JS.is_leading_surrogate c then
      match t with
      | c2 :: t' => JS.is_trailing_surrogate c2 && well_formed_unicode t'
      | [] => false
      end
    else negb (JS.is_trailing_surrogate c) && (c <? 0x10000) && well_formed_unicode t.
Proof. reflexivity. Qed.

(** [decodeURIComponent] undoes [encodeURIComponent] on every string with
    no unpaired surrogate, and [encodeURIComponent] does not throw on
    it. *)
Lemma Encode_decode (s : jsstring) :
  well_formed_unicode s = true ->
  exists r, JS.Encode s = Normal r /\ JS.decodeURIComponent r = Normal s.
Proof.
  induction s as [|C t IH1 IH2] using string_ind2.
  - intros _. now exists [].
  - rewrite well_formed_unicode_cons.
    destruct (JS.is_leading_surrogate C) eqn:Hl.
    + destruct t as [|c2 t']; [discriminate|].
      intros H. apply andb_true_iff in H as [Ht Hw].
      destruct (IH2 c2 t' eq_refl Hw) as (R & HR & HD).
      destruct (surrogate_pair_scalar C c2 Hl Ht) as [Hsc H16].
      assert (Hu : JS.uriUnreserved C = false).
      { destruct (JS.uriUnreserved C) eqn:E; [|reflexivity].
        apply uriUnreserved_ascii in E.
        unfold JS.is_leading_surrogate in Hl.
        apply andb_true_iff in Hl as [Hl _]. apply N.leb_le in Hl. lia. }
      rewrite (Encode_pair C c2 t' Hu Hl Ht), HR.
      eexists. split; [reflexivity|].
      rewrite (decode_after_scalar _ _ R Hsc), HD.
      * simpl. now rewrite H16.
      * apply escapes_escape_octets, UTF8Encode_octets, Hsc.
    + intros H. apply andb_true_iff in H as [H Hw].
      apply andb_true_iff in H as [Ht Hc].
      apply negb_true_iff in Ht. apply N.ltb_lt in Hc.
      destruct (IH1 Hw) as (R & HR & HD).
      destruct (JS.uriUnreserved C) eqn:Hu.
      * rewrite (Encode_unreserved C t Hu), HR.
        eexists. split; [reflexivity|].
        apply uriUnreserved_ascii in Hu as [Hp _].
        rewrite (decode_after_literal C R Hp), HD. reflexivity.
      * rewrite (Encode_single C t Hu Hl Ht), HR.
        eexists. split; [reflexivity|].
        assert (Hsc : scalar_value C).
        { split; [lia|]. now rewrite surrogate_split, Hl, Ht. }
        rewrite (decode_after_scalar _ _ R Hsc), HD.
        -- simpl. now rewrite UTF16Encode_unit.
        -- apply escapes_escape_octets, UTF8Encode_octets, Hsc.
Qed.

(* ================================================================== *)
(** * Escapes that are not well formed                                 *)
(* ================================================================== *)

Lemma percent_well_formed_escape (h1 h2 B : N) (t : jsstring) :
  JS.ParseHexOctet [h1; h2] = Some B ->
  percent_well_formed (JS.PERCENT :: h1 :: h2 :: t) = percent_well_formed t.
Proof.
  simpl. destruct (JS.hex_value h1) as [a|] eqn:Ea; [|discriminate].
  destruct (JS.hex_value h2) as [b|] eqn:Eb; [|discriminate]. intros _.
  apply hex_value_unit in Ea as [Ea _], Eb as [Eb _].
  apply N.eqb_neq in Ea, Eb. now rewrite Ea, Eb.
Qed.

Lemma percent_well_formed_escapes (Octets : list N) (e t : jsstring) :
  escapes Octets e -> percent_well_formed (e ++ t) = percent_well_formed t.
Proof.
  induction 1 as [|B Bs h1 h2 e Hh He IH]; [reflexivity|].
  simpl app. now rewrite (percent_well_formed_escape h1 h2 B).
Qed.

Lemma Decode_step_percent_well_formed (s piece rest : jsstring) :
  s <> [] -> JS.Decode_step s = Normal (piece, rest) ->
  percent_well_formed s = percent_well_formed rest.
Proof.
  destruct s as [|C t]; [congruence|]. intros _.
  destruct (N.eqb_spec C JS.PERCENT) as [->|Hne].
  - rewrite Decode_step_percent. intros H.
    apply bind_Normal in H as ([B t1] & Hr & H). cbv zeta in H.
    apply read_escape_Normal in Hr as (h1 & h2 & [= ->] & Hh).
    rewrite (percent_well_formed_escape h1 h2 B) by exact Hh.
    destruct (JS.leading_ones B) as [|[|n]].
    + now injection H as <- <-.
    + discriminate.
    + destruct (4 <? S (S n))%nat; [discriminate|].
      apply bind_Normal in H as ([Bs t2] & Hc & H). cbv zeta in H.
      apply read_continuations_Normal in Hc as (e & -> & He & Hl).
      destruct (JS.UTF8Decode (B :: Bs)); [|discriminate].
      injection H as <- <-. now apply percent_well_formed_escapes with Bs.
  - rewrite Decode_step_literal by exact Hne. intros [= <- <-].
    simpl. apply N.eqb_neq in Hne. now rewrite Hne.
Qed.

(** [decodeURIComponent] throws on every string in which some percent sign
    is not followed by two hexadecimal digits. *)
Lemma decodeURIComponent_ill_formed (s : jsstring) :
  percent_well_formed s = false -> JS.decodeURIComponent s = Throw URIError.
Proof.
  remember (List.length s) as n eqn:En. revert s En.
  induction n as [n IH] using lt_wf_ind. intros s En Hs.
  destruct s as [|C t]; [discriminate|].
  rewrite decodeURIComponent_step by discriminate.
  destruct (JS.Decode_step (C :: t)) as [[piece rest]|[]] eqn:Es; [|reflexivity].
  assert (Hne : C :: t <> []) by discriminate.
  pose proof (Decode_step_shorter _ _ _ Hne Es) as Hlen.
  apply Decode_step_percent_well_formed in Es; [|exact Hne].
  cbv beta iota zeta delta [bind].
  rewrite (IH (List.length rest)); try reflexivity; [lia|congruence].
Qed.

(* ================================================================== *)
(** * decode: plus signs first                                         *)
(* ================================================================== *)

Lemma hex_value_replace_plus (c : N) :
  JS.hex_value (if c =? JS.PLUS then JS.SPACE else c) = JS.hex_value c.
Proof. destruct (N.eqb_spec c JS.PLUS) as [->|]; reflexivity. Qed.

Lemma ParseHexOctet_replace_plus (t : jsstring) :
  JS.ParseHexOctet (JS.replace_plus t) = JS.ParseHexOctet t.
Proof.
  destruct t as [|h1 [|h2 t]]; try reflexivity.
  simpl. now rewrite !hex_value_replace_plus.
Qed.

Lemma percent_well_formed_replace_plus (s : jsstring) :
  percent_well_formed (JS.replace_plus s) = percent_well_formed s.
Proof.
  induction s as [|c t IH]; [reflexivity|].
  change (JS.replace_plus (c :: t))
    with ((if c =? JS.PLUS then JS.SPACE else c) :: JS.replace_plus t).
  simpl percent_well_formed. rewrite IH, ParseHexOctet_replace_plus.
  destruct (N.eqb_spec c JS.PLUS) as [->|]; reflexivity.
Qed.

Lemma replace_plus_absent (s : jsstring) :
  Forall (fun u => u <> JS.PLUS) s -> JS.replace_plus s = s.
Proof.
  induction 1 as [|c t Hc _ IH]; [reflexivity|].
  simpl. apply N.eqb_neq in Hc. now rewrite Hc, IH.
Qed.

Lemma escapes_no_plus (Octets : list N) (e : jsstring) :
  escapes Octets e -> Forall (fun u => u <> JS.PLUS) e.
Proof.
  induction 1 as [|B Bs h1 h2 e Hh He IH]; [constructor|].
  simpl in Hh.
  destruct (JS.hex_value h1) as [a|] eqn:Ea; [|discriminate].
  destruct (JS.hex_value h2) as [b|] eqn:Eb; [|discriminate].
  apply hex_value_unit in Ea as [_ Ea], Eb as [_ Eb].
  constructor; [discriminate|].
  constructor; [exact Ea|]. constructor; [exact Eb | exact IH].
Qed.

Lemma escaped_utf8_replace_plus (s : jsstring) :
  escaped_utf8 s -> escaped_utf8 (JS.replace_plus s).
Proof.
  induction 1 as [|c s Hc Hs IH|cp e s Hcp He Hs IH]; [constructor| |].
  - simpl. constructor; [|exact IH].
    destruct (N.eqb_spec c JS.PLUS); [discriminate | exact Hc].
  - unfold JS.replace_plus. rewrite map_app.
    fold (JS.replace_plus e). fold (JS.replace_plus s).
    rewrite (replace_plus_absent e) by now apply escapes_no_plus with (JS.UTF8Encode cp).
    now apply escaped_scalar with cp.
Qed.

(** [decodeURIComponent] does not throw on a string whose escapes spell
    UTF-8. *)
Lemma decodeURIComponent_escaped_utf8 (s : jsstring) :
  escaped_utf8 s -> exists r, JS.decodeURIComponent s = Normal r.
Proof.
  induction 1 as [|c s Hc Hs [r IH]|cp e s Hcp He Hs [r IH]].
  - now exists [].
  - rewrite (decode_after_literal c s Hc), IH. eexists. reflexivity.
  - rewrite (decode_after_scalar cp e s Hcp He), IH. eexists. reflexivity.
Qed.

Lemma decode_escaped_utf8 (s : jsstring) :
  escaped_utf8 s -> exists r, decode s = Normal r.
Proof.
  intros H. unfold decode.
  now apply decodeURIComponent_escaped_utf8, escaped_utf8_replace_plus.
Qed.

Lemma decode_ill_formed (s : jsstring) :
  percent_well_formed s = false -> decode s = Throw URIError.
Proof.
  intros H. unfold decode. apply decodeURIComponent_ill_formed.
  now rewrite percent_well_formed_replace_plus.
Qed.

(** [decode] undoes [encode]. *)
Lemma encode_decode (s : jsstring) :
  well_formed_unicode s = true ->
  exists r, encode s = Normal r /\ decode r = Normal s.
Proof.
  intros H. destruct (Encode_decode s H) as (r & Hr & Hd).
  exists r. split; [exact Hr|]. unfold decode.
  rewrite replace_plus_absent; [exact Hd|].
  eapply encode_no_unit; [|exact Hr]. simpl. tauto.
Qed.



(* ================================================================== *)
(** * Construction and decode errors                                   *)
(* ================================================================== *)

Lemma parse_var_Throw (v : jsstring) (s : SearchParams) :
  Exists (fun p => decode p = Throw URIError) (var_positions v) ->
  parse_var v s = Throw URIError.
Proof.
  unfold var_positions, parse_var.
  destruct (JS.split_limit JS.EQUALS 2 v) as [|key [|value l]];
    try (intros H; now inversion H).
  intros H. apply Exists_cons in H as [H|H]; [now rewrite H|].
  apply Exists_cons in H as [H|H]; [|now inversion H].
  rewrite H. now destruct (decode key) as [k|[]].
Qed.

Lemma parse_var_Normal (v : jsstring) (s : SearchParams) :
  Forall (fun p => exists r, decode p = Normal r) (var_positions v) ->
  exists s', parse_var v s = Normal s'.
Proof.
  unfold var_positions, parse_var.
  destruct (JS.split_limit JS.EQUALS 2 v) as [|key [|value l]];
    try (intros _; eexists; reflexivity).
  intros H. inversion H as [|? ? [k Hk] H']; subst.
  inversion H' as [|? ? [x Hx] _]; subst.
  rewrite Hk, Hx. eexists. reflexivity.
Qed.

Lemma parse_vars_Some (vars : list jsstring) (s : SearchParams) :
  Exists (fun p => decode p = Throw URIError) (flat_map var_positions vars) ->
  snd (parse_vars vars s) = Some URIError.
Proof.
  revert s. induction vars as [|v vars IH]; intros s H; [now inversion H|].
  simpl in *. destruct (parse_var v s) as [s'|[]] eqn:E; [|reflexivity].
  apply Exists_app in H as [H|H]; [|now apply IH].
  rewrite (parse_var_Throw v s H) in E. discriminate.
Qed.

Lemma parse_vars_None (vars : list jsstring) (s : SearchParams) :
  Forall (fun p => exists r, decode p = Normal r) (flat_map var_positions vars) ->
  snd (parse_vars vars s) = None.
Proof.
  revert s. induction vars as [|v vars IH]; intros s H; [reflexivity|].
  simpl in *. apply Forall_app in H as [Hv H].
  destruct (parse_var_Normal v s Hv) as [s' Hs']. rewrite Hs'. now apply IH.
Qed.

Lemma new_SearchParams_parse (query : jsstring) :
  new_SearchParams query
  = match snd (parse query (empty_store query)) with
    | None => Normal (fst (parse query (empty_store query)))
    | Some e => Throw e
    end.
Proof.
  unfold new_SearchParams, empty_store.
  now destruct (parse query _) as [s [e|]].
Qed.

(** C4, as the code has it.  Construction throws URIError when a string
    handed to [decode] holds a percent sign that is not followed by two
    hexadecimal digits, and it does not throw when the escapes of every
    such string spell the UTF-8 encodings of Unicode scalar values.  A
    store is returned only when [parse] ran to its end: when it throws,
    the store it was filling is not returned. *)
Theorem construction_and_decode_errors (query : jsstring) :
  (Exists (fun p => percent_well_formed p = false) (decoded_positions query) ->
   new_SearchParams query = Throw URIError)
  /\ (Forall escaped_utf8 (decoded_positions query) ->
      exists s, constructed query s)
  /\ (forall s, constructed query s ->
      parse query (empty_store query) = (s, None))
  /\ (forall e, snd (parse query (empty_store query)) = Some e ->
      new_SearchParams query = Throw e).
Proof.
  unfold constructed. rewrite new_SearchParams_parse.
  unfold decoded_positions, parse.
  set (q := if JS.startsWith JS.QUESTION query then JS.substring1 query else query).
  split; [|split; [|split]].
  - destruct q as [|c q]; [intros H; now inversion H|]. intros H.
    rewrite parse_vars_Some; [reflexivity|].
    eapply Exists_impl; [|exact H]. intros p. apply decode_ill_formed.
  - destruct q as [|c q]; [intros _; eexists; reflexivity|]. intros H.
    rewrite parse_vars_None; [eexists; reflexivity|].
    eapply Forall_impl; [|exact H]. intros p. apply decode_escaped_utf8.
  - intros s. destruct (match q with [] => _ | _ :: _ => _ end) as [s' [e|]];
      simpl; [discriminate|]. now intros [= ->].
  - intros e H. now rewrite H.
Qed.

Lemma construction_and_decode_errors_witness :
  new_SearchParams (js "a=1&b=%") = Throw URIError
  /\ entries (fst (parse (js "a=1&b=%") (empty_store (js "a=1&b=%"))))
     = [(js "a", js "1")]
  /\ new_SearchParams (js "a=%zz") = Throw URIError
  /\ exists s, constructed (js "k=caf%C3%A9+%e2%82%ac") s.
Proof.
  split; [|split; [reflexivity|split]].
  - apply (proj1 (construction_and_decode_errors (js "a=1&b=%"))).
    vm_compute. apply Exists_cons_tl, Exists_cons_tl, Exists_cons_tl.
    now apply Exists_cons_hd.
  - apply (proj1 (construction_and_decode_errors (js "a=%zz"))).
    vm_compute. now apply Exists_cons_tl, Exists_cons_hd.
  - apply (proj1 (proj2 (construction_and_decode_errors (js "k=caf%C3%A9+%e2%82%ac")))).
    vm_compute decoded_positions. constructor; [|constructor; [|constructor]].
    + apply escaped_literal; [discriminate | constructor].
    + do 3 (apply escaped_literal; [discriminate|]).
      apply (escaped_scalar 0xE9 (js "%C3%A9") (js "+%e2%82%ac")).
      * split; [vm_compute; discriminate | reflexivity].
      * vm_compute. repeat constructor.
      * apply escaped_literal; [discriminate|].
        apply (escaped_scalar 0x20AC (js "%e2%82%ac") []).
        -- split; [vm_compute; discriminate | reflexivity].
        -- vm_compute. repeat constructor.
        -- constructor.
Defined.

(** C4 for every well-formed escape fails on ["a=%FF"]: every percent sign
    of the strings handed to [decode] is followed by two hexadecimal
    digits, and construction throws URIError, because the octet FF starts
    no UTF-8 encoding. *)
Lemma well_formed_escape_may_throw :
  decoded_positions (js "a=%FF") = [js "a"; js "%FF"]
  /\ forallb percent_well_formed (decoded_positions (js "a=%FF")) = true
  /\ new_SearchParams (js "a=%FF") = Throw URIError.
Proof. repeat split. Qed.

(* ================================================================== *)
(** * addValue, entry by entry                                         *)
(* ================================================================== *)

Lemma entries_yielded (s : SearchParams) :
  entries s = flat_map yielded (params s).
Proof.
  unfold entries. apply flat_map_ext. now intros [k [x|a]].
Qed.

Lemma Map_get_last (k : jsstring) (w : pvalue) (acc : Map) :
  ~ In k (Map_keys acc) -> Map_get k (acc ++ [(k, w)]) = Some w.
Proof.
  induction acc as [|[k0 w0] acc IH]; simpl; intros H.
  - now rewrite string_eqb_refl.
  - string_cases k0 k; [tauto|]. apply IH. tauto.
Qed.

Lemma Map_set_last (k : jsstring) (w w' : pvalue) (acc : Map) :
  ~ In k (Map_keys acc) -> Map_set k w' (acc ++ [(k, w)]) = acc ++ [(k, w')].
Proof.
  induction acc as [|[k0 w0] acc IH]; simpl; intros H.
  - now rewrite string_eqb_refl.
  - string_cases k0 k; [tauto|]. rewrite IH; tauto.
Qed.

Lemma addValue_fresh (k v : jsstring) (s : SearchParams) :
  ~ In k (Map_keys (params s)) ->
  params (addValue k v s) = params s ++ [(k, PStr v)].
Proof.
  intros H. apply Map_get_None in H. unfold addValue. rewrite H. simpl.
  now apply Map_set_absent.
Qed.

Lemma addValue_last_string (k x v : jsstring) (acc : Map) (s : SearchParams) :
  params s = acc ++ [(k, PStr x)] -> ~ In k (Map_keys acc) ->
  params (addValue k v s) = acc ++ [(k, PArr [x; v])].
Proof.
  intros E H. unfold addValue. rewrite E, (Map_get_last k _ acc H). simpl.
  now apply Map_set_last.
Qed.

Lemma addValue_last_array (k v : jsstring) (a : list jsstring) (acc : Map) (s : SearchParams) :
  params s = acc ++ [(k, PArr a)] -> ~ In k (Map_keys acc) ->
  params (addValue k v s) = acc ++ [(k, PArr (a ++ [v]))].
Proof.
  intros E H. unfold addValue. rewrite E, (Map_get_last k _ acc H). simpl.
  now apply Map_set_last.
Qed.

Lemma add_all_array (k : jsstring) (b a : list jsstring) (acc : Map) (s : SearchParams) :
  params s = acc ++ [(k, PArr a)] -> ~ In k (Map_keys acc) ->
  params (add_all (map (fun inner => (k, inner)) b) s) = acc ++ [(k, PArr (a ++ b))].
Proof.
  revert a s. induction b as [|y b IH]; intros a s E H; simpl.
  - now rewrite app_nil_r.
  - unfold add_all in *. simpl.
    rewrite (IH (a ++ [y])); [now rewrite <- app_assoc | | exact H].
    now apply addValue_last_array.
Qed.

(** Adding the values [entries] yields for one key, to a store that does
    not hold the key: the store then yields them too, after what it
    yielded before, and holds no other new key. *)
Lemma add_all_yielded (k : jsstring) (w : pvalue) (s : SearchParams) :
  ~ In k (Map_keys (params s)) ->
  entries (add_all (yielded (k, w)) s) = entries s ++ yielded (k, w)
  /\ incl (Map_keys (params (add_all (yielded (k, w)) s)))
          (k :: Map_keys (params s)).
Proof.
  intros H. rewrite !entries_yielded.
  destruct w as [x|[|x [|y a]]]; unfold yielded, add_all; simpl fold_left.
  - rewrite addValue_fresh by exact H. rewrite flat_map_app. simpl.
    split; [reflexivity|]. unfold Map_keys. rewrite map_app. simpl.
    intros z Hz. apply in_app_or in Hz as [Hz|[<-|[]]]; simpl; auto.
  - simpl. rewrite app_nil_r. split; [reflexivity | now apply incl_tl].
  - rewrite addValue_fresh by exact H. rewrite flat_map_app. simpl.
    split; [reflexivity|]. unfold Map_keys. rewrite map_app. simpl.
    intros z Hz. apply in_app_or in Hz as [Hz|[<-|[]]]; simpl; auto.
  - fold (add_all (map (fun inner => (k, inner)) a)
            (addValue k y (addValue k x s))).
    rewrite (add_all_array k a [x; y] (params s)); [| |exact H].
    + rewrite flat_map_app. simpl. rewrite app_nil_r.
      split; [reflexivity|]. unfold Map_keys. rewrite map_app. simpl.
      intros z Hz. apply in_app_or in Hz as [Hz|[<-|[]]]; simpl; auto.
    + apply (addValue_last_string k x y (params s)); [|exact H].
      now apply addValue_fresh.
Qed.

Lemma add_all_app (es es' : list (jsstring * jsstring)) (s : SearchParams) :
  add_all (es ++ es') s = add_all es' (add_all es s).
Proof. unfold add_all. apply fold_left_app. Qed.

(** Adding, in order, everything a Map yields to a store that holds none
    of its keys: the store yields all of it after what it yielded. *)
Lemma add_all_entries (m : Map) (s : SearchParams) :
  Map_ok m ->
  (forall k, In k (Map_keys m) -> ~ In k (Map_keys (params s))) ->
  entries (add_all (flat_map yielded m) s) = entries s ++ flat_map yielded m.
Proof.
  unfold Map_ok. revert s.
  induction m as [|[k w] m IH]; intros s Hnd Hdis; simpl.
  - now rewrite app_nil_r.
  - inversion Hnd as [|? ? Hin Hnd']; subst.
    rewrite add_all_app.
    destruct (add_all_yielded k w s) as [He Hk]; [apply Hdis; now left|].
    rewrite IH; [now rewrite He, <- app_assoc | exact Hnd' |].
    intros k' Hk' Hc. apply Hk in Hc as [<-|Hc]; [contradiction|].
    apply (Hdis k'); [now right | exact Hc].
Qed.

(* ================================================================== *)
(** * Parsing the output of toString                                   *)
(* ================================================================== *)

Lemma split_app_sep (sep : N) (p r : jsstring) :
  ~ In sep p -> JS.split sep (p ++ sep :: r) = p :: JS.split sep r.
Proof.
  induction p as [|c p IH]; simpl; intros H.
  - now rewrite N.eqb_refl.
  - destruct (N.eqb_spec c sep); [exfalso; apply H; now left|].
    rewrite IH by tauto. reflexivity.
Qed.

Lemma split_join (sep : N) (parts : list jsstring) :
  parts <> [] -> Forall (fun p => ~ In sep p) parts ->
  JS.split sep (JS.join sep parts) = parts.
Proof.
  intros Hne H. revert Hne.
  induction H as [|p ps Hp Hps IH]; intros Hne; [now destruct Hne|].
  destruct ps as [|q ps].
  - simpl. now apply split_absent.
  - rewrite join_cons2, split_app_sep by exact Hp.
    f_equal. apply IH. discriminate.
Qed.

Lemma before_first_app (sep : N) (p r : jsstring) :
  ~ In sep p -> before_first sep (p ++ sep :: r) = p.
Proof.
  induction p as [|c p IH]; simpl; intros H.
  - now rewrite N.eqb_refl.
  - destruct (N.eqb_spec c sep); [exfalso; apply H; now left|].
    rewrite IH by tauto. reflexivity.
Qed.

Lemma after_first_app (sep : N) (p r : jsstring) :
  ~ In sep p -> after_first sep (p ++ sep :: r) = r.
Proof.
  induction p as [|c p IH]; simpl; intros H.
  - now rewrite N.eqb_refl.
  - destruct (N.eqb_spec c sep); [exfalso; apply H; now left|].
    apply IH. tauto.
Qed.

Lemma Forall_neq_not_In (c : N) (x : jsstring) :
  Forall (fun u => u <> c) x -> ~ In c x.
Proof. rewrite Forall_forall. intros H Hin. now apply (H c). Qed.

Lemma serialized_units (e : jsstring * jsstring) (part : jsstring) :
  serialized e part ->
  ~ In JS.AMP part /\ part <> [] /\ JS.startsWith JS.QUESTION part = false.
Proof.
  intros (ek & ev & Hek & Hev & ->).
  assert (Hk : forall c, In c [JS.EQUALS; JS.AMP; JS.PLUS; JS.SPACE; JS.QUESTION] ->
                         ~ In c ek).
  { intros c Hc. eapply Forall_neq_not_In, encode_no_unit; eauto. }
  assert (Hv : forall c, In c [JS.EQUALS; JS.AMP; JS.PLUS; JS.SPACE; JS.QUESTION] ->
                         ~ In c ev).
  { intros c Hc. eapply Forall_neq_not_In, encode_no_unit; eauto. }
  split; [|split].
  - intros H. apply in_app_or in H as [H|[H|H]].
    + revert H. apply Hk. simpl. tauto.
    + discriminate.
    + revert H. apply Hv. simpl. tauto.
  - destruct ek; discriminate.
  - destruct ek as [|c ek]; [reflexivity|]. simpl.
    apply N.eqb_neq. intros ->. apply (Hk JS.QUESTION); simpl; tauto.
Qed.

(** A part of the output, parsed: the entry it was written from is
    added. *)
Lemma parse_var_serialized (e : jsstring * jsstring) (part : jsstring) (s : SearchParams) :
  well_formed_unicode (fst e) = true -> well_formed_unicode (snd e) = true ->
  serialized e part ->
  parse_var part s = Normal (addValue (fst e) (snd e) s).
Proof.
  intros Wk Wv (ek & ev & Hek & Hev & ->).
  destruct (encode_decode _ Wk) as (rk & Hrk & Hdk).
  destruct (encode_decode _ Wv) as (rv & Hrv & Hdv).
  assert (rk = ek) by congruence. assert (rv = ev) by congruence. subst.
  assert (Hk : ~ In JS.EQUALS ek).
  { eapply Forall_neq_not_In, encode_no_unit; [|exact Hek]. simpl. tauto. }
  assert (Hv : ~ In JS.EQUALS ev).
  { eapply Forall_neq_not_In, encode_no_unit; [|exact Hev]. simpl. tauto. }
  unfold parse_var. rewrite split_limit_2.
  replace (existsb (N.eqb JS.EQUALS) (ek ++ JS.EQUALS :: ev)) with true.
  - rewrite before_first_app, after_first_app, before_first_absent by assumption.
    now rewrite Hdk, Hdv.
  - symmetry. apply existsb_eqb_In. apply in_or_app. right. now left.
Qed.

Lemma parse_vars_serialized (es : list (jsstring * jsstring)) (parts : list jsstring)
    (s : SearchParams) :
  Forall (fun e => well_formed_unicode (fst e) = true
                   /\ well_formed_unicode (snd e) = true) es ->
  Forall2 serialized es parts ->
  parse_vars parts s = (add_all es s, None).
Proof.
  intros Hw Hp. revert s. induction Hp as [|e p es ps He Hps IH]; intros s.
  - reflexivity.
  - inversion Hw as [|? ? [Wk Wv] Hw']; subst. simpl.
    rewrite (parse_var_serialized e p s Wk Wv He). now apply IH.
Qed.

Lemma toString_entries (s s' : SearchParams) :
  entries s' = entries s -> toString s' = toString s.
Proof. unfold toString. now intros ->. Qed.

Lemma join_not_nil (sep : N) (p : jsstring) (ps : list jsstring) :
  p <> [] -> exists c r, JS.join sep (p :: ps) = c :: r /\ exists p', p = c :: p'.
Proof.
  destruct p as [|c p]; [congruence|]. intros _.
  destruct ps; simpl; eauto.
Qed.

(** Every well-formed store can be written. *)
Lemma toString_well_formed (s : SearchParams) :
  Forall (fun e => well_formed_unicode (fst e) = true
                   /\ well_formed_unicode (snd e) = true) (entries s) ->
  exists parts, Forall2 serialized (entries s) parts.
Proof.
  induction 1 as [|e es [Wk Wv] _ [parts IH]]; [exists []; constructor|].
  destruct (encode_decode _ Wk) as (ek & Hek & _).
  destruct (encode_decode _ Wv) as (ev & Hev & _).
  exists ((ek ++ JS.EQUALS :: ev) :: parts). constructor; [|exact IH].
  now exists ek, ev.
Qed.

Lemma join_units (sep : N) (P : N -> Prop) (parts : list jsstring) :
  P sep -> Forall (Forall P) parts -> Forall P (JS.join sep parts).
Proof.
  intros Hsep H. induction H as [|p ps Hp Hps IH]; [constructor|].
  destruct ps as [|q ps]; [exact Hp|].
  rewrite join_cons2. apply Forall_app. split; [exact Hp|].
  now constructor.
Qed.

Lemma serialized_no_space_plus (e : jsstring * jsstring) (part : jsstring) :
  serialized e part -> Forall (fun c => c <> JS.SPACE /\ c <> JS.PLUS) part.
Proof.
  intros (ek & ev & Hek & Hev & ->).
  assert (H : forall k r, encode k = Normal r ->
                          Forall (fun c => c <> JS.SPACE /\ c <> JS.PLUS) r).
  { intros k r Hr. apply Encode_written in Hr.
    eapply Forall_impl; [|exact Hr]. intros c Hc.
    apply written_unit_not in Hc. tauto. }
  apply Forall_app. split; [now apply H with (fst e)|].
  constructor; [split; discriminate | now apply H with (snd e)].
Qed.

(** C7, as the code has it.  For a store whose keys and values hold no
    unpaired surrogate, [toString] returns the entries of [entries()], in
    order, each written as the encoded key, an equals sign and the encoded
    value, joined by ampersands; the output holds no space and no plus
    sign (a space is written [%20]); and the store constructed from the
    output has the same entries, and the same output. *)
Theorem toString_reparses (s : SearchParams) :
  Map_ok (params s) ->
  Forall (fun e => well_formed_unicode (fst e) = true
                   /\ well_formed_unicode (snd e) = true) (entries s) ->
  exists out,
    toString s = Normal out
    /\ (exists parts,
          Forall2 serialized (entries s) parts /\ out = JS.join JS.AMP parts)
    /\ Forall (fun c => c <> JS.SPACE /\ c <> JS.PLUS) out
    /\ encode [JS.SPACE] = Normal (js "%20")
    /\ exists s',
         constructed out s' /\ entries s' = entries s /\ toString s' = Normal out.
Proof.
  intros Hok Hw. destruct (toString_well_formed s Hw) as [parts Hp].
  exists (JS.join JS.AMP parts).
  assert (Hout : toString s = Normal (JS.join JS.AMP parts)).
  { apply toString_Normal. now exists parts. }
  split; [exact Hout|]. split; [now exists parts|]. split; [|split; [reflexivity|]].
  { apply join_units; [split; discriminate|].
    clear -Hp. induction Hp as [|e p es ps He _ IH]; constructor; trivial.
    now apply serialized_no_space_plus with e. }
  assert (Hnew : exists s', constructed (JS.join JS.AMP parts) s'
                            /\ entries s' = entries s).
  { unfold constructed. rewrite new_SearchParams_parse. unfold parse.
    set (st := empty_store (JS.join JS.AMP parts)).
    assert (Hadd : entries (add_all (entries s) st) = entries s).
    { rewrite (entries_yielded s).
      rewrite (add_all_entries (params s) st Hok); [reflexivity|].
      intros k _ []. }
    clear Hout. revert Hp Hw Hadd. generalize (entries s) as es0.
    intros es0 Hp Hw Hadd. destruct Hp as [|e p es ps He Hps].
    - exists st. split; [reflexivity | exact Hadd].
    - destruct (serialized_units e p He) as (_ & Hne & Hq).
      destruct (join_not_nil JS.AMP p ps Hne) as (c & r & Ej & p' & ->).
      rewrite Ej. simpl in Hq. simpl JS.startsWith. rewrite Hq. rewrite <- Ej.
      rewrite split_join; [|discriminate|].
      + rewrite (parse_vars_serialized (e :: es) ((c :: p') :: ps));
          [|exact Hw | now constructor].
        simpl fst. simpl snd. exists (add_all (e :: es) st).
        split; [reflexivity | exact Hadd].
      + constructor; [apply (serialized_units e _ He)|].
        clear -Hps. induction Hps as [|e' p es' ps' He' _ IH]; constructor; trivial.
        apply (serialized_units e' _ He'). }
  destruct Hnew as (s' & Hc & He). exists s'.
  split; [exact Hc|]. split; [exact He|].
  now rewrite (toString_entries s s' He).
Qed.

Lemma toString_reparses_witness :
  exists s,
    constructed (js "b=1+2&a=%C3%A9&b=") s
    /\ entries s = [(js "b", js "1 2"); (js "b", js ""); (js "a", [0xE9])]
    /\ exists out,
         toString s = Normal out
         /\ (exists parts,
               Forall2 serialized (entries s) parts /\ out = JS.join JS.AMP parts)
         /\ Forall (fun c => c <> JS.SPACE /\ c <> JS.PLUS) out
         /\ encode [JS.SPACE] = Normal (js "%20")
         /\ exists s',
              constructed out s' /\ entries s' = entries s
              /\ toString s' = Normal out.
Proof.
  eexists. split; [vm_compute; reflexivity|]. split; [reflexivity|].
  apply toString_reparses.
  - vm_compute. repeat constructor; simpl; intuition discriminate.
  - repeat constructor.
Defined.

(** C7 for every store fails on the store parsed from ["a="] followed
    by the unpaired surrogate D800: the store holds the entry, and
    [toString] throws URIError, so there is no output to parse again. *)
Lemma toString_throws_on_unpaired_surrogate :
  exists s,
    constructed (js "a=" ++ [0xD800]) s
    /\ entries s = [(js "a", [0xD800])]
    /\ toString s = Throw URIError.
Proof.
  eexists. split; [vm_compute; reflexivity|]. split; reflexivity.
Qed.

(* ================================================================== *)
(** * Every store holds a key once                                     *)
(* ================================================================== *)

Lemma Map_ok_parse_vars (vars : list jsstring) (s : SearchParams) :
  Map_ok (params s) -> Map_ok (params (fst (parse_vars vars s))).
Proof.
  revert s. induction vars as [|v vars IH]; intros s H; [exact H|].
  simpl. destruct (parse_var v s) as [s'|e] eqn:E; [|exact H].
  apply IH. unfold parse_var in E.
  destruct (JS.split_limit JS.EQUALS 2 v) as [|key [|value l]].
  - now injection E as <-.
  - injection E as <-. now apply Map_ok_addValue.
  - apply bind_Normal in E as (k & _ & E).
    apply bind_Normal in E as (x & _ & [= <-]). now apply Map_ok_addValue.
Qed.

Lemma Map_ok_constructed (query : jsstring) (s : SearchParams) :
  constructed query s -> Map_ok (params s).
Proof.
  unfold constructed. rewrite new_SearchParams_parse.
  destruct (snd (parse query (empty_store query))) eqn:E; [discriminate|].
  intros [= <-]. unfold parse.
  destruct (if JS.startsWith JS.QUESTION query then _ else _);
    [constructor|].
  apply Map_ok_parse_vars. constructor.
Qed.

Lemma reachable_Map_ok (s : SearchParams) : reachable s -> Map_ok (params s).
Proof.
  induction 1 as [query s H|key value s _ IH|key value s _ IH|key s _ IH|s _ IH].
  - now apply Map_ok_constructed with query.
  - now apply Map_ok_addValue.
  - now apply Map_ok_set.
  - now apply Map_ok_delete.
  - now apply Map_ok_sort.
Qed.

(* ================================================================== *)
(** * When the two URI built-ins throw                                 *)
(* ================================================================== *)

(** Construction throws exactly when [decode] throws on one of the strings
    handed to it. *)
Lemma construction_throws_iff (query : jsstring) :
  new_SearchParams query = Throw URIError
  <-> Exists (fun p => decode p = Throw URIError) (decoded_positions query).
Proof.
  rewrite new_SearchParams_parse. unfold decoded_positions, parse.
  destruct (if JS.startsWith JS.QUESTION query then _ else _) as [|c q].
  - split; [discriminate | intros H; inversion H].
  - set (vars := JS.split JS.AMP (c :: q)). split.
    + intros H.
      destruct (Exists_dec (fun p => decode p = Throw URIError)
                  (flat_map var_positions vars)) as [He|Hn]; [|exact He|].
      * intros p. destruct (decode p) as [r|[]]; [right; discriminate | now left].
      * rewrite parse_vars_None in H; [discriminate|].
        apply Forall_Exists_neg in Hn. eapply Forall_impl; [|exact Hn].
        intros p Hp. destruct (decode p) as [r|[]] eqn:E; [eauto | now destruct Hp].
    + intros H. now rewrite parse_vars_Some.
Qed.

Lemma well_formed_unicode_leading (C : N) (t : jsstring) :
  JS.is_leading_surrogate C = true ->
  well_formed_unicode (C :: t)
  = match t with
    | c2 :: t' => JS.is_trailing_surrogate c2 && well_formed_unicode t'
    | [] => false
    end.
Proof. intros H. rewrite well_formed_unicode_cons. now rewrite H. Qed.

(** [encodeURIComponent] throws on every string of code units that holds
    an unpaired surrogate. *)
Lemma Encode_unpaired_surrogate (s : jsstring) :
  code_units s = true -> well_formed_unicode s = false ->
  JS.Encode s = Throw URIError.
Proof.
  induction s as [|C t IH1 IH2] using string_ind2; [discriminate|].
  intros Hcu. simpl in Hcu. apply andb_true_iff in Hcu as [HC Hcu].
  rewrite well_formed_unicode_cons.
  destruct (JS.uriUnreserved C) eqn:Hu.
  - rewrite (Encode_unreserved C t Hu).
    apply uriUnreserved_ascii in Hu as [_ Hu].
    assert (Hl : JS.is_leading_surrogate C = false).
    { unfold JS.is_leading_surrogate. apply andb_false_iff. left.
      apply N.leb_gt. lia. }
    assert (Ht : JS.is_trailing_surrogate C = false).
    { unfold JS.is_trailing_surrogate. apply andb_false_iff. left.
      apply N.leb_gt. lia. }
    rewrite Hl, Ht, HC. cbn [andb negb]. intros Hw. now rewrite (IH1 Hcu Hw).
  - destruct (JS.is_leading_surrogate C) eqn:Hl.
    + destruct t as [|c2 t'].
      * intros _. rewrite Encode_cons, Hu. unfold JS.CodePointAt.
        now rewrite Hl, (leading_not_trailing C Hl).
      * destruct (JS.is_trailing_surrogate c2) eqn:Ht2; cbn [andb].
        -- intros Hw. rewrite (Encode_pair C c2 t' Hu Hl Ht2).
           simpl in Hcu. apply andb_true_iff in Hcu as [_ Hcu].
           now rewrite (IH2 c2 t' eq_refl Hcu Hw).
        -- intros _. rewrite Encode_cons, Hu. unfold JS.CodePointAt.
           now rewrite Hl, (leading_not_trailing C Hl), Ht2.
    + destruct (JS.is_trailing_surrogate C) eqn:Ht; cbn [andb negb].
      * intros _. rewrite Encode_cons, Hu. unfold JS.CodePointAt.
        now rewrite Hl, Ht.
      * rewrite HC. cbn [andb]. intros Hw.
        rewrite (Encode_single C t Hu Hl Ht). now rewrite (IH1 Hcu Hw).
Qed.

Lemma mapM_Throw {A B} (f : A -> completion B) (l : list A) :
  Exists (fun a => f a = Throw URIError) l -> mapM f l = Throw URIError.
Proof.
  induction 1 as [a l H|a l _ IH]; simpl.
  - now rewrite H.
  - destruct (f a) as [b|[]]; [|reflexivity]. simpl. now rewrite IH.
Qed.

(** [toString] throws on every store that holds an unpaired surrogate in a
    key or in a value. *)
Lemma toString_unpaired_surrogate (s : SearchParams) :
  Forall (fun e => code_units (fst e) = true /\ code_units (snd e) = true) (entries s) ->
  Exists (fun e => well_formed_unicode (fst e) = false
                   \/ well_formed_unicode (snd e) = false) (entries s) ->
  toString s = Throw URIError.
Proof.
  intros Hcu Hex. unfold toString. rewrite mapM_Throw; [reflexivity|].
  rewrite Forall_forall in Hcu. apply Exists_exists in Hex as (e & Hin & He).
  apply Exists_exists. exists e. split; [exact Hin|].
  destruct (Hcu e Hin) as [Ck Cv]. destruct e as [k v]. simpl in *.
  unfold encode, JS.encodeURIComponent. destruct He as [He|He].
  - now rewrite (Encode_unpaired_surrogate k Ck He).
  - rewrite (Encode_unpaired_surrogate v Cv He).
    now destruct (JS.Encode k) as [ek|[]].
Qed.

(* ================================================================== *)
(** * delete, append and set on the entries                            *)
(* ================================================================== *)

Lemma test_store_ok : Map_ok (params test_store).
Proof. vm_compute. repeat constructor; simpl; intuition discriminate. Qed.

Lemma test_store_reachable : reachable test_store.
Proof. apply reachable_new with (js "b=2&b=1&c=3&a=4"). reflexivity. Qed.

Lemma other_yielded_same (k : jsstring) (w : pvalue) :
  filter (fun e => negb (string_eqb (fst e) k)) (yielded (k, w)) = [].
Proof.
  destruct w as [x|a]; unfold yielded; simpl.
  - now rewrite string_eqb_refl.
  - induction a as [|y a IH]; simpl; [reflexivity|].
    now rewrite string_eqb_refl.
Qed.

Lemma other_yielded_other (k0 k : jsstring) (w : pvalue) :
  string_eqb k0 k = false ->
  filter (fun e => negb (string_eqb (fst e) k)) (yielded (k0, w)) = yielded (k0, w).
Proof.
  intros E. destruct w as [x|a]; unfold yielded; simpl.
  - now rewrite E.
  - induction a as [|y a IH]; simpl; [reflexivity|].
    rewrite E. simpl. now rewrite IH.
Qed.

Lemma other_entries_yielded (k : jsstring) (s : SearchParams) :
  other_entries k s
  = filter (fun e => negb (string_eqb (fst e) k)) (flat_map yielded (params s)).
Proof. unfold other_entries. now rewrite entries_yielded. Qed.

Lemma Map_delete_absent (k : jsstring) (m : Map) :
  Map_ok m -> ~ In k (Map_keys (Map_delete k m)).
Proof.
  unfold Map_ok. induction m as [|[k0 w] m IH]; simpl; [tauto|].
  intros Hnd. inversion Hnd as [|? ? Hin Hnd']; subst.
  string_cases k0 k; [exact Hin|].
  simpl. intros [?|?]; [contradiction | now apply IH].
Qed.

Lemma Map_get_delete_other (k k' : jsstring) (m : Map) :
  k' <> k -> Map_get k' (Map_delete k m) = Map_get k' m.
Proof.
  intros Hne. induction m as [|[k0 w] m IH]; simpl; [reflexivity|].
  string_cases k0 k; simpl.
  - apply string_eqb_neq in Hne. rewrite string_eqb_sym. now rewrite Hne.
  - now rewrite IH.
Qed.

Lemma Map_delete_entries (k : jsstring) (m : Map) :
  Map_ok m ->
  flat_map yielded (Map_delete k m)
  = filter (fun e => negb (string_eqb (fst e) k)) (flat_map yielded m).
Proof.
  unfold Map_ok. induction m as [|[k0 w] m IH]; simpl; [reflexivity|].
  intros Hnd. inversion Hnd as [|? ? Hin Hnd']; subst.
  rewrite filter_app. string_cases k0 k.
  - rewrite other_yielded_same. simpl.
    pose proof (other_entries_absent k m [] Hin) as H.
    rewrite other_entries_yielded, entries_yielded in H. simpl in H.
    now rewrite H.
  - simpl. rewrite other_yielded_other by exact E. now rewrite IH.
Qed.

(** X1. [delete(key)] returns whether the store held the key, and leaves
    the entries of the other keys, in their order, and nothing of the key:
    afterwards [has] is false and no entry bears the key. *)
Theorem delete_leaves_the_other_entries (s : SearchParams) (k : jsstring) :
  Map_ok (params s) ->
  snd (delete k s) = has k s
  /\ entries (fst (delete k s)) = other_entries k s
  /\ has k (fst (delete k s)) = false
  /\ recorded k (fst (delete k s)) = []
  /\ (forall k', k' <> k ->
        Map_get k' (params (fst (delete k s))) = Map_get k' (params s)).
Proof.
  intros Hok. split; [reflexivity|].
  assert (Habs : ~ In k (Map_keys (Map_delete k (params s))))
    by now apply Map_delete_absent.
  split; [|split; [|split]].
  - rewrite entries_yielded, other_entries_yielded. simpl.
    now apply Map_delete_entries.
  - unfold has, Map_has. simpl. apply Map_get_None in Habs. now rewrite Habs.
  - destruct s as [m o]. simpl in *. now apply recorded_absent.
  - intros k' Hne. simpl. now apply Map_get_delete_other.
Qed.

Lemma delete_leaves_the_other_entries_witness :
  snd (delete (js "b") test_store) = true
  /\ entries (fst (delete (js "b") test_store))
     = [(js "c", js "3"); (js "a", js "4")]
  /\ has (js "b") (fst (delete (js "b") test_store)) = false.
Proof.
  destruct (delete_leaves_the_other_entries test_store (js "b") test_store_ok)
    as (H1 & H2 & H3 & _).
  split; [exact H1|]. split; [exact H2 | exact H3].
Defined.

(** X2. Lookups of a key the store does not hold are no errors: [get]
    returns [null], [getAll] the empty array, and [delete] returns false
    and leaves the Map as it was. *)
Theorem absent_key_lookups (s : SearchParams) (k : jsstring) :
  has k s = false ->
  get k s = None
  /\ getAll k s = []
  /\ recorded k s = []
  /\ delete k s = (s, false).
Proof.
  unfold has, Map_has, get, getAll, delete.
  destruct (Map_get k (params s)) eqn:E; [discriminate|]. intros _.
  split; [reflexivity|]. split; [reflexivity|]. split.
  - apply Map_get_None in E. destruct s as [m o]. now apply recorded_absent.
  - unfold Map_has. rewrite E. f_equal.
    destruct s as [m o]. unfold with_params. simpl in *. f_equal.
    clear o. induction m as [|[k0 w] m IH]; simpl in *; [reflexivity|].
    destruct (string_eqb k0 k); [discriminate|]. now rewrite IH.
Qed.

Lemma absent_key_lookups_witness :
  get (js "not") test_store = None
  /\ getAll (js "not") test_store = []
  /\ recorded (js "not") test_store = []
  /\ delete (js "not") test_store = (test_store, false).
Proof. apply absent_key_lookups. reflexivity. Defined.

(** X3. [append(key, value)] adds the string conversion of the value after
    the values the key has, and changes no entry of another key; the key
    keeps its place when the store holds it and goes last when it does
    not, in which case [append] does what [set] does. *)
Theorem append_adds_after_the_values (s : SearchParams) (k : jsstring) (v : JS.any) :
  Map_ok (params s) ->
  recorded k (append k v s) = recorded k s ++ [JS.ToString v]
  /\ other_entries k (append k v s) = other_entries k s
  /\ Map_keys (params (append k v s))
     = (if has k s then Map_keys (params s) else Map_keys (params s) ++ [k])
  /\ (has k s = false -> append k v s = set k v s).
Proof.
  intros Hok.
  assert (Hok' : Map_ok (params (append k v s))) by now apply Map_ok_addValue.
  split; [|split; [|split]].
  - rewrite (recorded_Map_get k _ Hok'), (recorded_Map_get k _ Hok).
    unfold append, addValue.
    destruct (Map_get k (params s)) as [[x|a]|]; simpl;
      now rewrite Map_get_set_same.
  - destruct s as [m o]. unfold append, addValue, with_params. simpl.
    destruct (Map_get k m) as [[x|a]|]; simpl; apply other_entries_set.
  - unfold append, addValue, has.
    destruct (Map_get k (params s)) as [[x|a]|] eqn:E; simpl;
      rewrite Map_keys_set; reflexivity.
  - unfold has, Map_has, append, addValue, set.
    now destruct (Map_get k (params s)).
Qed.

Lemma append_adds_after_the_values_witness :
  recorded (js "b") (append (js "b") (JS.ANumber 7 eq_refl) test_store)
  = [js "2"; js "1"; js "7"]
  /\ other_entries (js "b") (append (js "b") (JS.ANumber 7 eq_refl) test_store)
     = [(js "c", js "3"); (js "a", js "4")]
  /\ Map_keys (params (append (js "b") (JS.ANumber 7 eq_refl) test_store))
     = [js "b"; js "c"; js "a"].
Proof.
  destruct (append_adds_after_the_values test_store (js "b") (JS.ANumber 7 eq_refl)
              test_store_ok) as (H1 & H2 & H3 & _).
  split; [exact H1|]. split; [exact H2 | exact H3].
Defined.

Lemma Map_set_set (k : jsstring) (w1 w2 : pvalue) (m : Map) :
  Map_set k w2 (Map_set k w1 m) = Map_set k w2 m.
Proof.
  induction m as [|[k0 w] m IH]; simpl.
  - now rewrite string_eqb_refl.
  - destruct (string_eqb k0 k) eqn:E; simpl; rewrite E; [reflexivity|].
    now rewrite IH.
Qed.

(** X4. After [set(key, value)] the key has the string conversion of the
    value as its only value, whatever it had before, and a second [set]
    of the key undoes the first. *)
Theorem set_replaces_all_values (s : SearchParams) (k : jsstring) (v v' : JS.any) :
  Map_ok (params s) ->
  recorded k (set k v s) = [JS.ToString v]
  /\ has k (set k v s) = true
  /\ set k v' (set k v s) = set k v' s.
Proof.
  intros Hok.
  assert (Hok' : Map_ok (params (set k v s))) by now apply Map_ok_set.
  split; [|split].
  - rewrite (recorded_Map_get k _ Hok'). now rewrite set_stores_verbatim.
  - unfold has, Map_has. now rewrite set_stores_verbatim.
  - unfold set, with_params. simpl. now rewrite Map_set_set.
Qed.

Lemma set_replaces_all_values_witness :
  recorded (js "b") (set (js "b") (JS.AString (js "x")) test_store) = [js "x"]
  /\ has (js "b") (set (js "b") (JS.AString (js "x")) test_store) = true
  /\ set (js "b") JS.ANull (set (js "b") (JS.AString (js "x")) test_store)
     = set (js "b") JS.ANull test_store.
Proof. apply set_replaces_all_values. exact test_store_ok. Defined.

(** X5. [delete(key)] followed by [set(key, value)] moves the key to the
    end: the entries are those of the other keys, in their order, and then
    the new entry. *)
Theorem delete_then_set_goes_last (s : SearchParams) (k : jsstring) (v : JS.any) :
  Map_ok (params s) ->
  entries (set k v (fst (delete k s)))
  = other_entries k s ++ [(k, JS.ToString v)].
Proof.
  intros Hok. rewrite entries_yielded, other_entries_yielded. simpl.
  rewrite Map_set_absent.
  - rewrite flat_map_app. simpl. now rewrite Map_delete_entries.
  - apply Map_get_None. now apply Map_delete_absent.
Qed.

Lemma delete_then_set_goes_last_witness :
  entries (set (js "b") (JS.ANumber 9 eq_refl) (fst (delete (js "b") test_store)))
  = [(js "c", js "3"); (js "a", js "4"); (js "b", js "9")].
Proof. apply (delete_then_set_goes_last test_store). exact test_store_ok. Defined.

(* ================================================================== *)
(** * Scalars and arrays in the Map                                    *)
(* ================================================================== *)

Lemma arrays_ok_set (k : jsstring) (w : pvalue) (m : Map) :
  arrays_ok m -> value_ok w -> arrays_ok (Map_set k w m).
Proof.
  unfold arrays_ok. intros H Hw. induction H as [|[k0 w0] m H0 H IH]; simpl.
  - now repeat constructor.
  - destruct (string_eqb k0 k); constructor; trivial.
Qed.

Lemma arrays_ok_delete (k : jsstring) (m : Map) :
  arrays_ok m -> arrays_ok (Map_delete k m).
Proof.
  unfold arrays_ok. induction 1 as [|[k0 w0] m H0 H IH]; simpl; [constructor|].
  destruct (string_eqb k0 k); [exact H | now constructor].
Qed.

Lemma arrays_ok_get (k : jsstring) (w : pvalue) (m : Map) :
  arrays_ok m -> Map_get k m = Some w -> value_ok w.
Proof.
  unfold arrays_ok. intros H Hg. apply Map_get_Some_In in Hg.
  rewrite Forall_forall in H. now apply (H (k, w)).
Qed.

Lemma arrays_ok_addValue (k v : jsstring) (s : SearchParams) :
  arrays_ok (params s) -> arrays_ok (params (addValue k v s)).
Proof.
  intros H. unfold addValue.
  destruct (Map_get k (params s)) as [[x|a]|] eqn:E; simpl;
    apply arrays_ok_set; trivial; simpl; try lia.
  apply (arrays_ok_get k _ _ H) in E. simpl in E.
  rewrite length_app. simpl. lia.
Qed.

Lemma arrays_ok_parse_vars (vars : list jsstring) (s : SearchParams) :
  arrays_ok (params s) -> arrays_ok (params (fst (parse_vars vars s))).
Proof.
  revert s. induction vars as [|v vars IH]; intros s H; [exact H|].
  simpl. destruct (parse_var v s) as [s'|e] eqn:E; [|exact H].
  apply IH. unfold parse_var in E.
  destruct (JS.split_limit JS.EQUALS 2 v) as [|key [|value l]].
  - now injection E as <-.
  - injection E as <-. now apply arrays_ok_addValue.
  - apply bind_Normal in E as (k & _ & E).
    apply bind_Normal in E as (x & _ & [= <-]). now apply arrays_ok_addValue.
Qed.

Lemma arrays_ok_constructed (query : jsstring) (s : SearchParams) :
  constructed query s -> arrays_ok (params s).
Proof.
  unfold constructed. rewrite new_SearchParams_parse.
  destruct (snd (parse query (empty_store query))) eqn:E; [discriminate|].
  intros [= <-]. unfold parse.
  destruct (if JS.startsWith JS.QUESTION query then _ else _);
    [constructor|].
  apply arrays_ok_parse_vars. constructor.
Qed.

Lemma reachable_arrays_ok (s : SearchParams) : reachable s -> arrays_ok (params s).
Proof.
  induction 1 as [query s H|key value s _ IH|key value s _ IH|key s _ IH|s Hr IH].
  - now apply arrays_ok_constructed with query.
  - now apply arrays_ok_addValue.
  - apply arrays_ok_set; [exact IH | exact I].
  - now apply arrays_ok_delete.
  - apply reachable_Map_ok in Hr. destruct (sort_params s Hr) as [Hp _].
    unfold arrays_ok in *. eapply Permutation_Forall; eassumption.
Qed.

(** X6. In every store a program can hold, a key of the Map holds either a
    string or an array of at least two strings: [addValue] makes an array
    only for a second value, and nothing removes a value from an array.
    So a key the store holds has at least one value. *)
Theorem single_values_are_scalars (s : SearchParams) (k : jsstring) (w : pvalue) :
  reachable s -> Map_get k (params s) = Some w ->
  match w with
  | PStr x => recorded k s = [x]
  | PArr a => recorded k s = a /\ (2 <= List.length a)%nat
  end.
Proof.
  intros Hr Hg. pose proof (reachable_Map_ok s Hr) as Hok.
  pose proof (arrays_ok_get k w _ (reachable_arrays_ok s Hr) Hg) as Hw.
  rewrite (recorded_Map_get k s Hok), Hg. destruct w; [reflexivity | now split].
Qed.

Lemma single_values_are_scalars_witness :
  recorded (js "b") test_store = [js "2"; js "1"]
  /\ (2 <= List.length [js "2"; js "1"])%nat.
Proof.
  apply (single_values_are_scalars test_store (js "b")
           (PArr [js "2"; js "1"]) test_store_reachable).
  reflexivity.
Defined.

(** X7. In every store a program can hold, [getAll(key)] returns the values
    recorded for the key, in order, except when the key has the empty
    string as its only value: then it returns the empty array. *)
Theorem getAll_returns_the_recorded_values (s : SearchParams) (k : jsstring) :
  reachable s ->
  getAll k s = match recorded k s with
               | [[]] => []
               | values => values
               end.
Proof.
  intros Hr. pose proof (reachable_Map_ok s Hr) as Hok.
  pose proof (reachable_arrays_ok s Hr) as Ha.
  rewrite (recorded_Map_get k s Hok). unfold getAll.
  destruct (Map_get k (params s)) as [[[|c x]|a]|] eqn:E; try reflexivity.
  apply (arrays_ok_get k _ _ Ha) in E. simpl in E.
  destruct a as [|y [|z a]]; simpl in E; try lia. now destruct y.
Qed.

Lemma getAll_returns_the_recorded_values_witness :
  getAll (js "b") test_store = [js "2"; js "1"].
Proof.
  exact (getAll_returns_the_recorded_values test_store (js "b") test_store_reachable).
Defined.

(** X8. In every store a program can hold, [get(key)] is the first element
    of what [getAll(key)] returns, and [null] when that is empty. *)
Theorem get_is_the_head_of_getAll (s : SearchParams) (k : jsstring) :
  reachable s -> get k s = hd_error (getAll k s).
Proof.
  intros Hr. pose proof (reachable_arrays_ok s Hr) as Ha.
  unfold get, getAll.
  destruct (Map_get k (params s)) as [[[|c x]|a]|] eqn:E; try reflexivity.
  apply (arrays_ok_get k _ _ Ha) in E. simpl in E.
  destruct a as [|[|c y] a]; simpl in *; [lia | reflexivity | reflexivity].
Qed.

Lemma get_is_the_head_of_getAll_witness :
  get (js "b") test_store = Some (js "2").
Proof.
  exact (get_is_the_head_of_getAll test_store (js "b") test_store_reachable).
Defined.

Lemma In_yielded_key (k0 k v : jsstring) (w : pvalue) :
  In (k, v) (yielded (k0, w)) -> k = k0.
Proof.
  destruct w as [x|a]; unfold yielded; simpl.
  - now intros [[= <- _]|[]].
  - rewrite in_map_iff. now intros (y & [= <- _] & _).
Qed.

(** X9. In every store a program can hold, [has(key)] is true exactly when
    [keys()] yields the key. *)
Theorem has_iff_keys_yields (s : SearchParams) (k : jsstring) :
  reachable s -> (has k s = true <-> In k (keys s)).
Proof.
  intros Hr. pose proof (reachable_arrays_ok s Hr) as Ha.
  unfold has, Map_has, keys. rewrite entries_yielded. split.
  - destruct (Map_get k (params s)) as [w|] eqn:E; [|discriminate]. intros _.
    pose proof (arrays_ok_get k w _ Ha E) as Hw.
    apply Map_get_Some_In in E. rewrite in_map_iff.
    destruct w as [x|[|y a]]; simpl in Hw; [| lia |].
    + exists (k, x). split; [reflexivity|].
      apply in_flat_map. exists (k, PStr x). split; [exact E | now left].
    + exists (k, y). split; [reflexivity|].
      apply in_flat_map. exists (k, PArr (y :: a)). split; [exact E | now left].
  - rewrite in_map_iff. intros ([k' v] & Hk & Hin). simpl in Hk. subst k'.
    apply in_flat_map in Hin as ([k0 w] & Hin & Hy).
    apply In_yielded_key in Hy. subst k0.
    destruct (Map_get k (params s)) eqn:E; [reflexivity|].
    apply Map_get_None in E. exfalso. apply E.
    unfold Map_keys. apply in_map_iff. now exists (k, w).
Qed.

Lemma has_iff_keys_yields_witness :
  has (js "c") test_store = true <-> In (js "c") (keys test_store).
Proof. exact (has_iff_keys_yields test_store (js "c") test_store_reachable). Defined.

(* ================================================================== *)
(** * parse as a sequence of addValue                                  *)
(* ================================================================== *)

Lemma parse_var_pair (v : jsstring) (s : SearchParams) :
  parse_var v s = (e <- var_pair v ;; Normal (addValue (fst e) (snd e) s)).
Proof.
  unfold parse_var, var_pair. rewrite split_limit_2.
  destruct (existsb (N.eqb JS.EQUALS) v); [|reflexivity].
  destruct (decode (before_first JS.EQUALS v)) as [k|e]; [|reflexivity].
  simpl. now destruct (decode _).
Qed.

Lemma parse_vars_pairs (vars : list jsstring) (s : SearchParams) :
  match mapM var_pair vars with
  | Normal pairs => parse_vars vars s = (add_all pairs s, None)
  | Throw e => snd (parse_vars vars s) = Some e
  end.
Proof.
  revert s. induction vars as [|v vars IH]; intros s; [reflexivity|].
  simpl. rewrite parse_var_pair.
  destruct (var_pair v) as [e|x]; simpl; [|reflexivity].
  specialize (IH (addValue (fst e) (snd e) s)).
  destruct (mapM var_pair vars) as [pairs|x]; simpl; exact IH.
Qed.

Lemma parse_segments (query : jsstring) (s : SearchParams) :
  parse query s = parse_vars (segments query) s.
Proof.
  unfold parse, segments, stripped.
  now destruct (if JS.startsWith JS.QUESTION query then _ else _).
Qed.

(** The store constructed from a query is the empty store with the pairs
    of the segments added in order. *)
Lemma constructed_pairs (query : jsstring) (s : SearchParams) :
  constructed query s <->
  exists pairs,
    mapM var_pair (segments query) = Normal pairs
    /\ s = add_all pairs (empty_store query).
Proof.
  unfold constructed. rewrite new_SearchParams_parse, parse_segments.
  pose proof (parse_vars_pairs (segments query) (empty_store query)) as H.
  destruct (mapM var_pair (segments query)) as [pairs|e].
  - rewrite H. simpl. split.
    + intros [= <-]. now exists pairs.
    + intros (p & [= <-] & ->). reflexivity.
  - rewrite H. split; [discriminate|]. intros (p & Hp & _). discriminate.
Qed.

Lemma Map_ok_add_all (es : list (jsstring * jsstring)) (s : SearchParams) :
  Map_ok (params s) -> Map_ok (params (add_all es s)).
Proof.
  revert s. induction es as [|e es IH]; intros s H; [exact H|].
  apply IH. now apply Map_ok_addValue.
Qed.

Lemma recorded_addValue (k k' v : jsstring) (s : SearchParams) :
  Map_ok (params s) ->
  recorded k (addValue k' v s)
  = if string_eqb k' k then recorded k s ++ [v] else recorded k s.
Proof.
  intros Hok.
  rewrite (recorded_Map_get k _ (Map_ok_addValue k' v s Hok)).
  rewrite (recorded_Map_get k s Hok). unfold addValue.
  string_cases k' k.
  - destruct (Map_get k (params s)) as [[x|a]|]; simpl;
      now rewrite Map_get_set_same.
  - assert (Hne : k <> k') by congruence.
    destruct (Map_get k' (params s)) as [[x|a]|]; simpl;
      now rewrite (Map_get_set_other k' k _ _ Hne).
Qed.

Lemma recorded_add_all (k : jsstring) (es : list (jsstring * jsstring)) (s : SearchParams) :
  Map_ok (params s) ->
  recorded k (add_all es s)
  = recorded k s ++ map snd (filter (fun e => string_eqb (fst e) k) es).
Proof.
  revert s. induction es as [|[k' v] es IH]; intros s Hok; simpl.
  - now rewrite app_nil_r.
  - change (add_all ((k', v) :: es) s) with (add_all es (addValue k' v s)).
    rewrite IH by now apply Map_ok_addValue.
    rewrite (recorded_addValue k k' v s Hok).
    destruct (string_eqb k' k); simpl; [now rewrite <- app_assoc | reflexivity].
Qed.

Lemma Map_has_keys (k : jsstring) (m : Map) :
  Map_has k m = existsb (string_eqb k) (Map_keys m).
Proof.
  unfold Map_has. induction m as [|[k0 w] m IH]; simpl; [reflexivity|].
  rewrite (string_eqb_sym k k0). destruct (string_eqb k0 k); [reflexivity|].
  exact IH.
Qed.

Lemma Map_keys_addValue (k v : jsstring) (s : SearchParams) :
  Map_keys (params (addValue k v s))
  = if Map_has k (params s) then Map_keys (params s) else Map_keys (params s) ++ [k].
Proof.
  unfold addValue.
  destruct (Map_get k (params s)) as [[x|a]|] eqn:E; simpl; rewrite Map_keys_set;
    unfold Map_has; now rewrite E.
Qed.

Lemma Map_keys_add_all (es : list (jsstring * jsstring)) (s : SearchParams) :
  Map_keys (params (add_all es s))
  = Map_keys (params s) ++ first_seen (Map_keys (params s)) (map fst es).
Proof.
  revert s. induction es as [|[k v] es IH]; intros s; simpl.
  - now rewrite app_nil_r.
  - change (add_all ((k, v) :: es) s) with (add_all es (addValue k v s)).
    rewrite IH, Map_keys_addValue, <- Map_has_keys.
    destruct (Map_has k (params s)); [reflexivity|].
    now rewrite <- app_assoc.
Qed.

(** X10. Construction groups the pairs of the segments by key: the keys of
    the store stand in the order of their first occurrence in the query,
    and the values of every key are the values of its pairs in the order
    of the segments. *)
Theorem parse_groups_pairs_by_key (query : jsstring) (s : SearchParams) :
  constructed query s ->
  exists pairs,
    mapM var_pair (segments query) = Normal pairs
    /\ Map_keys (params s) = first_seen [] (map fst pairs)
    /\ forall k,
         recorded k s = map snd (filter (fun e => string_eqb (fst e) k) pairs).
Proof.
  intros H. apply constructed_pairs in H as (pairs & Hp & ->).
  exists pairs. split; [exact Hp|]. split.
  - now rewrite Map_keys_add_all.
  - intros k. rewrite recorded_add_all by constructor. reflexivity.
Qed.

Lemma parse_groups_pairs_by_key_witness :
  exists pairs,
    mapM var_pair (segments (js "b=2&b=1&c=3&a=4")) = Normal pairs
    /\ Map_keys (params test_store) = first_seen [] (map fst pairs)
    /\ forall k,
         recorded k test_store
         = map snd (filter (fun e => string_eqb (fst e) k) pairs).
Proof.
  apply (parse_groups_pairs_by_key (js "b=2&b=1&c=3&a=4") test_store).
  reflexivity.
Defined.

Lemma length_yielded_set (k : jsstring) (w w' : pvalue) (m : Map) :
  Map_get k m = Some w ->
  (List.length (flat_map yielded (Map_set k w' m)) + List.length (yielded (k, w))
   = List.length (flat_map yielded m) + List.length (yielded (k, w')))%nat.
Proof.
  induction m as [|[k0 w0] m IH]; simpl; [discriminate|].
  string_cases k0 k.
  - intros [= ->]. simpl. rewrite !length_app. lia.
  - intros Hg. simpl. rewrite !length_app. specialize (IH Hg). lia.
Qed.

Lemma length_entries_addValue (k v : jsstring) (s : SearchParams) :
  List.length (entries (addValue k v s)) = S (List.length (entries s)).
Proof.
  rewrite !entries_yielded. unfold addValue.
  destruct (Map_get k (params s)) as [[x|a]|] eqn:E; simpl.
  - pose proof (length_yielded_set k _ (PArr [x; v]) _ E) as H.
    unfold yielded in H at 2 4. simpl in H. lia.
  - pose proof (length_yielded_set k _ (PArr (a ++ [v])) _ E) as H.
    unfold yielded in H at 2 4. simpl in H.
    rewrite !length_map, length_app in H. simpl in H. lia.
  - rewrite Map_set_absent by exact E. rewrite flat_map_app, length_app.
    simpl. lia.
Qed.

Lemma length_entries_add_all (es : list (jsstring * jsstring)) (s : SearchParams) :
  List.length (entries (add_all es s))
  = (List.length (entries s) + List.length es)%nat.
Proof.
  revert s. induction es as [|e es IH]; intros s; simpl; [lia|].
  change (add_all (e :: es) s) with (add_all es (addValue (fst e) (snd e) s)).
  rewrite IH, length_entries_addValue. lia.
Qed.

Lemma length_split (sep : N) (s : jsstring) :
  List.length (JS.split sep s) = S (count_unit sep s).
Proof.
  unfold count_unit. induction s as [|c t IH]; simpl; [reflexivity|].
  rewrite (N.eqb_sym sep c). destruct (c =? sep); simpl; [now rewrite IH|].
  destruct (JS.split sep t) as [|p ps]; simpl in *; [discriminate | exact IH].
Qed.

Lemma length_mapM {A B} (f : A -> completion B) (l : list A) (bs : list B) :
  mapM f l = Normal bs -> List.length bs = List.length l.
Proof.
  intros H. apply mapM_Normal in H. symmetry. now apply Forall2_length in H.
Qed.

(** X11. A store that is constructed has one entry for every segment of
    the query, the empty segments included: none for the empty query, and
    otherwise one more than the query has ampersands. *)
Theorem one_entry_for_every_segment (query : jsstring) (s : SearchParams) :
  constructed query s ->
  List.length (entries s)
  = match stripped query with
    | [] => 0%nat
    | _ :: _ => S (count_unit JS.AMP (stripped query))
    end.
Proof.
  intros H. apply constructed_pairs in H as (pairs & Hp & ->).
  rewrite length_entries_add_all. simpl.
  apply length_mapM in Hp. rewrite Hp. unfold segments.
  destruct (stripped query); [reflexivity | apply length_split].
Qed.

Lemma one_entry_for_every_segment_witness :
  exists s,
    constructed (js "?a&&b=1&") s
    /\ entries s = [(js "a", js ""); (js "", js ""); (js "", js ""); (js "b", js "1")]
    /\ List.length (entries s) = 4%nat.
Proof.
  eexists. split; [vm_compute; reflexivity|]. split; [reflexivity|].
  apply (one_entry_for_every_segment (js "?a&&b=1&")). vm_compute. reflexivity.
Defined.

Lemma parse_var_params (v : jsstring) (s1 s2 : SearchParams) :
  params s1 = params s2 ->
  match parse_var v s1, parse_var v s2 with
  | Normal t1, Normal t2 => params t1 = params t2
  | Throw _, Throw _ => True
  | _, _ => False
  end.
Proof.
  intros H. rewrite !parse_var_pair.
  destruct (var_pair v) as [e|x]; simpl; [|exact I].
  unfold addValue. rewrite H.
  now destruct (Map_get (fst e) (params s2)) as [[y|a]|].
Qed.

Lemma parse_vars_params (vars : list jsstring) (s1 s2 : SearchParams) :
  params s1 = params s2 ->
  params (fst (parse_vars vars s1)) = params (fst (parse_vars vars s2))
  /\ snd (parse_vars vars s1) = snd (parse_vars vars s2).
Proof.
  revert s1 s2. induction vars as [|v vars IH]; intros s1 s2 H; [now split|].
  simpl. pose proof (parse_var_params v s1 s2 H) as Hv.
  destruct (parse_var v s1) as [t1|[]], (parse_var v s2) as [t2|[]];
    try contradiction; [now apply IH | now split].
Qed.

(** X12. One leading question mark is not part of the query: a query that
    does not start with one constructs the same Map with it put in front,
    and throws with it exactly when it throws without. *)
Theorem leading_question_mark_is_dropped (query : jsstring) :
  JS.startsWith JS.QUESTION query = false ->
  match new_SearchParams (JS.QUESTION :: query), new_SearchParams query with
  | Normal s', Normal s => params s' = params s /\ entries s' = entries s
  | Throw _, Throw _ => True
  | _, _ => False
  end.
Proof.
  intros Hq. rewrite !new_SearchParams_parse, !parse_segments.
  assert (Hs : segments (JS.QUESTION :: query) = segments query).
  { unfold segments, stripped. now rewrite Hq. }
  rewrite Hs.
  destruct (parse_vars_params (segments query)
              (empty_store (JS.QUESTION :: query)) (empty_store query) eq_refl)
    as [Hp He].
  rewrite He. destruct (snd (parse_vars (segments query) (empty_store query)));
    [exact I|].
  split; [exact Hp|]. rewrite !entries_yielded. now rewrite Hp.
Qed.

Lemma leading_question_mark_is_dropped_witness :
  match new_SearchParams (js "?a=1&b"), new_SearchParams (js "a=1&b") with
  | Normal s', Normal s => params s' = params s /\ entries s' = entries s
  | Throw _, Throw _ => True
  | _, _ => False
  end.
Proof. apply (leading_question_mark_is_dropped (js "a=1&b")). reflexivity. Defined.

(* ================================================================== *)
(** * encode and decode                                                *)
(* ================================================================== *)

(** X13. [decode] undoes [encode]: on a string with no unpaired surrogate
    [encode] returns, and [decode] of what it returns is the string. *)
Theorem decode_undoes_encode (s : jsstring) :
  well_formed_unicode s = true ->
  exists r, encode s = Normal r /\ decode r = Normal s.
Proof. apply encode_decode. Qed.

Lemma decode_undoes_encode_witness :
  exists r,
    encode (js "a b+c&d=" ++ [0xE9; 0x20AC; 0xD83D; 0xDE00]) = Normal r
    /\ decode r = Normal (js "a b+c&d=" ++ [0xE9; 0x20AC; 0xD83D; 0xDE00]).
Proof. apply decode_undoes_encode. reflexivity. Defined.

(** X14. On a string of code units [encode] throws URIError exactly when
    the string holds an unpaired surrogate. *)
Theorem encode_throws_on_unpaired_surrogates_only (s : jsstring) :
  code_units s = true ->
  (encode s = Throw URIError <-> well_formed_unicode s = false).
Proof.
  intros Hcu. split.
  - intros Ht. destruct (well_formed_unicode s) eqn:Hw; [|reflexivity].
    destruct (encode_decode s Hw) as (r & Hr & _). congruence.
  - intros Hw. now apply Encode_unpaired_surrogate.
Qed.

Lemma encode_throws_on_unpaired_surrogates_only_witness :
  encode [0x61; 0xDE00; 0xD83D] = Throw URIError
  <-> well_formed_unicode [0x61; 0xDE00; 0xD83D] = false.
Proof. apply encode_throws_on_unpaired_surrogates_only. reflexivity. Defined.

Lemma written_unit_not_delimiter (c : N) :
  In c (js " #$&+,/:;=?@") -> ~ written_unit c.
Proof.
  intros Hc [H|[->|[d ->]]].
  - simpl in Hc.
    repeat (destruct Hc as [<-|Hc]; [discriminate H|]). exact Hc.
  - simpl in Hc. repeat (destruct Hc as [Hc|Hc]; [discriminate Hc|]). exact Hc.
  - unfold JS.hex_digit in Hc. simpl in Hc.
    destruct (N.ltb_spec d 10);
      repeat (destruct Hc as [Hc|Hc]; [lia|]); exact Hc.
Qed.

(** X15. What [encode] returns holds no space and none of the delimiters
    [# $ & + , / : ; = ? @]: it can stand as a key or a value of a query
    string as it is. *)
Theorem encode_writes_no_delimiter (s r : jsstring) :
  encode s = Normal r ->
  Forall (fun c => ~ In c (js " #$&+,/:;=?@")) r.
Proof.
  intros H. apply Encode_written in H. eapply Forall_impl; [|exact H].
  intros c Hw Hc. now apply (written_unit_not_delimiter c Hc).
Qed.

Lemma encode_writes_no_delimiter_witness :
  Forall (fun c => ~ In c (js " #$&+,/:;=?@")) (js "a%20b%2Bc%26d%3D%C3%A9").
Proof.
  apply (encode_writes_no_delimiter (js "a b+c&d=" ++ [0xE9])). reflexivity.
Defined.

Lemma decodeURIComponent_literal (s : jsstring) :
  Forall (fun c => c <> JS.PERCENT) s -> JS.decodeURIComponent s = Normal s.
Proof.
  induction 1 as [|c s Hc _ IH]; [reflexivity|].
  now rewrite (decode_after_literal c s Hc), IH.
Qed.

(** X16. On a string with no percent sign [decode] does not throw: it
    returns the string with every plus sign turned into a space. *)
Theorem decode_without_percent (s : jsstring) :
  Forall (fun c => c <> JS.PERCENT) s ->
  decode s = Normal (JS.replace_plus s).
Proof.
  intros H. unfold decode. apply decodeURIComponent_literal.
  unfold JS.replace_plus. apply Forall_map.
  eapply Forall_impl; [|exact H]. intros c Hc.
  destruct (N.eqb_spec c JS.PLUS); [discriminate | exact Hc].
Qed.

Lemma decode_without_percent_witness :
  decode (js "plus+signs+too") = Normal (js "plus signs too").
Proof.
  apply (decode_without_percent (js "plus+signs+too")).
  repeat constructor; discriminate.
Defined.

(** X17. [decode] reads the escaped UTF-8 encoding of a Unicode scalar
    value, written with hexadecimal digits of either case, as the UTF-16
    encoding of that value. *)
Theorem decode_reads_escaped_scalar (cp : N) (e : jsstring) :
  scalar_value cp -> escapes (JS.UTF8Encode cp) e ->
  decode e = Normal (JS.UTF16EncodeCodePoint cp).
Proof.
  intros Hcp He. unfold decode.
  rewrite replace_plus_absent by now apply escapes_no_plus with (JS.UTF8Encode cp).
  rewrite <- (app_nil_r e). rewrite (decode_after_scalar cp e [] Hcp He).
  simpl. now rewrite app_nil_r.
Qed.

Lemma decode_reads_escaped_scalar_witness :
  decode (js "%f0%9F%98%80") = Normal [0xD83D; 0xDE00].
Proof.
  apply (decode_reads_escaped_scalar 0x1F600 (js "%f0%9F%98%80")).
  - split; [vm_compute; discriminate | reflexivity].
  - vm_compute. repeat constructor.
Defined.

(** X18. After text with no percent sign, an escape of a continuation octet
    (80 to BF) or of an octet above F7, neither of which starts a UTF-8
    encoding, makes [decode] throw URIError, whatever stands after it. *)
Theorem decode_throws_on_stray_octet (before after : jsstring) (h1 h2 B : N) :
  Forall (fun c => c <> JS.PERCENT) before ->
  JS.ParseHexOctet [h1; h2] = Some B ->
  0x80 <= B < 0xC0 \/ 0xF8 <= B ->
  decode (before ++ JS.PERCENT :: h1 :: h2 :: after) = Throw URIError.
Proof.
  intros Hb Hh HB. unfold decode.
  assert (Happ : JS.replace_plus (before ++ JS.PERCENT :: h1 :: h2 :: after)
                 = JS.replace_plus before
                   ++ JS.PERCENT :: JS.replace_plus (h1 :: h2 :: after)).
  { unfold JS.replace_plus. now rewrite map_app. }
  rewrite Happ. clear Happ.
  assert (Hb' : Forall (fun c => c <> JS.PERCENT) (JS.replace_plus before)).
  { unfold JS.replace_plus. apply Forall_map.
    eapply Forall_impl; [|exact Hb]. intros c Hc.
    destruct (N.eqb_spec c JS.PLUS); [discriminate | exact Hc]. }
  assert (Hr : JS.read_escape (JS.PERCENT :: JS.replace_plus (h1 :: h2 :: after))
               = Normal (B, JS.replace_plus after)).
  { apply read_escape_Normal.
    exists (if h1 =? JS.PLUS then JS.SPACE else h1),
           (if h2 =? JS.PLUS then JS.SPACE else h2).
    split; [reflexivity|].
    change (JS.ParseHexOctet (JS.replace_plus [h1; h2]) = Some B).
    now rewrite ParseHexOctet_replace_plus. }
  assert (Hn : JS.leading_ones B = 1%nat \/ (4 < JS.leading_ones B)%nat).
  { pose proof (ParseHexOctet_bound _ _ Hh) as Hlt.
    rewrite (leading_ones_range B Hlt). unfold leading_ones_by_range.
    destruct HB as [[H1 H2]|H1].
    - left. replace (B <? 0x80) with false by (symmetry; apply N.ltb_ge; lia).
      now replace (B <? 0xC0) with true by (symmetry; apply N.ltb_lt; lia).
    - right. replace (B <? 0x80) with false by (symmetry; apply N.ltb_ge; lia).
      replace (B <? 0xC0) with false by (symmetry; apply N.ltb_ge; lia).
      replace (B <? 0xE0) with false by (symmetry; apply N.ltb_ge; lia).
      replace (B <? 0xF0) with false by (symmetry; apply N.ltb_ge; lia).
      replace (B <? 0xF8) with false by (symmetry; apply N.ltb_ge; lia).
      destruct (B <? 0xFC); [lia|]. destruct (B <? 0xFE); [lia|].
      destruct (B <? 0xFF); lia. }
  generalize dependent (JS.replace_plus (h1 :: h2 :: after)). intros t Hr.
  induction Hb' as [|c b Hc _ IH]; simpl app.
  - rewrite decodeURIComponent_step by discriminate.
    rewrite Decode_step_percent, Hr. cbv beta iota zeta delta [bind].
    destruct Hn as [Hn|Hn].
    + now rewrite Hn.
    + destruct (JS.leading_ones B) as [|[|n]]; [lia | lia |].
      now replace (4 <? S (S n))%nat with true by (symmetry; apply Nat.ltb_lt; lia).
  - rewrite (decode_after_literal c _ Hc), IH. reflexivity.
Qed.

Lemma decode_throws_on_stray_octet_witness :
  decode (js "a+b%BFc") = Throw URIError.
Proof.
  apply (decode_throws_on_stray_octet (js "a+b") (js "c") 66 70 0xBF).
  - repeat constructor; discriminate.
  - reflexivity.
  - left. split; [now apply N.leb_le | now apply N.ltb_lt].
Defined.

(* ================================================================== *)
(** * sort, toString and entries together                              *)
(* ================================================================== *)

Lemma sort_insert_sorted_head (k : jsstring) (l : list jsstring) :
  Forall (string_lt k) l -> JS.sort_insert k l = k :: l.
Proof.
  intros H. destruct H as [|y l Hy _]; [reflexivity|]. simpl.
  now rewrite (string_ltb_asym k y Hy).
Qed.

Lemma sort_sorted_id (l : list jsstring) :
  StronglySorted string_lt l -> JS.sort l = l.
Proof.
  induction 1 as [|k l Hs IH Hk]; [reflexivity|].
  simpl. rewrite IH. now apply sort_insert_sorted_head.
Qed.

Lemma sort_loop_all (m : Map) :
  Map_ok m ->
  fold_left (fun (sorted : Map) k =>
               match Map_get k m with
               | Some v => Map_set k v sorted
               | None => sorted
               end) (Map_keys m) []
  = m.
Proof.
  intros Hok. apply (sort_loop m m []); [exact Hok|].
  intros k v. now apply Map_get_In.
Qed.

Lemma Map_get_sort (k : jsstring) (s : SearchParams) :
  Map_ok (params s) -> Map_get k (params (sort s)) = Map_get k (params s).
Proof.
  intros Hok. destruct (sort_params s Hok) as [Hp _].
  now apply Map_get_perm.
Qed.

(** X19. [sort()] a second time changes nothing: a sorted store is left as
    it is. *)
Theorem sort_twice_is_sort_once (s : SearchParams) :
  Map_ok (params s) -> sort (sort s) = sort s.
Proof.
  intros Hok. pose proof (Map_ok_sort s Hok) as Hok'.
  destruct (sort_params s Hok) as [_ Hk].
  assert (Hss : StronglySorted string_lt (Map_keys (params (sort s)))).
  { rewrite Hk. apply sorted_NoDup_strict; [apply sort_sorted|].
    eapply Permutation_NoDup; [apply sort_perm | exact Hok]. }
  unfold sort at 1. rewrite (sort_sorted_id _ Hss).
  rewrite (sort_loop_all _ Hok'). reflexivity.
Qed.

Lemma sort_twice_is_sort_once_witness :
  sort (sort test_store) = sort test_store.
Proof. apply sort_twice_is_sort_once. exact test_store_ok. Defined.

(** X20. [sort()] changes no lookup: [has], [get] and [getAll] answer for
    every key as they did before. *)
Theorem sort_changes_no_lookup (s : SearchParams) (k : jsstring) :
  Map_ok (params s) ->
  has k (sort s) = has k s
  /\ get k (sort s) = get k s
  /\ getAll k (sort s) = getAll k s.
Proof.
  intros Hok. unfold has, Map_has, get, getAll.
  now rewrite (Map_get_sort k s Hok).
Qed.

Lemma sort_changes_no_lookup_witness :
  has (js "b") (sort test_store) = true
  /\ get (js "b") (sort test_store) = Some (js "2")
  /\ getAll (js "b") (sort test_store) = [js "2"; js "1"].
Proof. apply (sort_changes_no_lookup test_store (js "b")). exact test_store_ok. Defined.

Lemma recorded_cons_other (k k0 : jsstring) (w : pvalue) (m : Map) (o : jsstring) :
  string_eqb k0 k = false ->
  recorded k {| params := (k0, w) :: m; original := o |}
  = recorded k {| params := m; original := o |}.
Proof.
  intros E. unfold recorded. rewrite !entries_yielded. simpl.
  rewrite filter_app.
  assert (Hf : filter (fun e => string_eqb (fst e) k) (yielded (k0, w)) = []).
  { destruct w as [x|a]; unfold yielded; simpl; [now rewrite E|].
    now apply filter_key_other. }
  now rewrite Hf.
Qed.

(** X21. [entries()] yields the values key by key: for every key of the
    Map, in the order of the Map, all the values recorded for it.  The
    values of a key that recurs in a query are therefore yielded together,
    before the entries of the keys that came between them. *)
Theorem entries_are_grouped_by_key (s : SearchParams) :
  Map_ok (params s) ->
  entries s
  = flat_map (fun k => map (fun v => (k, v)) (recorded k s)) (Map_keys (params s)).
Proof.
  destruct s as [m o]. simpl. unfold Map_ok.
  induction m as [|[k0 w] m IH]; intros Hnd; [reflexivity|].
  inversion Hnd as [|? ? Hin Hnd']; subst.
  rewrite entries_yielded.
  change (flat_map yielded (params {| params := (k0, w) :: m; original := o |}))
    with (yielded (k0, w) ++ flat_map yielded m).
  change (Map_keys ((k0, w) :: m)) with (k0 :: Map_keys m).
  cbn [flat_map]. f_equal.
  - rewrite (recorded_Map_get k0 {| params := (k0, w) :: m; original := o |} Hnd).
    simpl. rewrite string_eqb_refl. destruct w as [x|a]; unfold yielded; reflexivity.
  - transitivity (entries {| params := m; original := o |});
      [symmetry; apply entries_yielded|].
    rewrite (IH Hnd'). rewrite !flat_map_concat_map. f_equal.
    apply map_ext_in. intros k Hk.
    rewrite recorded_cons_other; [reflexivity|].
    apply string_eqb_neq. intros ->. contradiction.
Qed.

Lemma entries_are_grouped_by_key_witness :
  exists s,
    constructed (js "a=1&b=2&a=3") s
    /\ entries s = [(js "a", js "1"); (js "a", js "3"); (js "b", js "2")].
Proof.
  eexists. split; [vm_compute; reflexivity|].
  rewrite entries_are_grouped_by_key; [reflexivity|].
  vm_compute. repeat constructor; simpl; intuition discriminate.
Defined.

Lemma var_pair_serialized (es : list (jsstring * jsstring)) (parts : list jsstring) :
  Forall (fun e => well_formed_unicode (fst e) = true
                   /\ well_formed_unicode (snd e) = true) es ->
  Forall2 serialized es parts ->
  mapM var_pair parts = Normal es.
Proof.
  intros Hw Hp. apply mapM_Normal.
  induction Hp as [|e0 p0 es0 ps0 He0 _ IH]; [constructor|].
  inversion Hw as [|? ? [Wk Wv] Hw']; subst.
  constructor; [|now apply IH].
  pose proof (parse_var_serialized e0 p0 (empty_store []) Wk Wv He0) as Hv.
  rewrite parse_var_pair in Hv.
  destruct (var_pair p0) as [[k v]|x]; [|discriminate].
  simpl in Hv. injection Hv as Hv.
  destruct e0 as [k0 v0]. simpl in *.
  unfold addValue, empty_store, with_params in Hv. simpl in Hv.
  congruence.
Qed.

(** The store constructed from what [toString] returns. *)
Lemma toString_constructed (s : SearchParams) (out : jsstring) :
  Map_ok (params s) ->
  Forall (fun e => well_formed_unicode (fst e) = true
                   /\ well_formed_unicode (snd e) = true) (entries s) ->
  toString s = Normal out ->
  exists s', constructed out s' /\ entries s' = entries s.
Proof.
  intros Hok Hw Hout. apply toString_Normal in Hout as (parts & Hp & ->).
  set (out := JS.join JS.AMP parts).
  assert (Hadd : entries (add_all (entries s) (empty_store out)) = entries s).
  { rewrite (entries_yielded s).
    rewrite (add_all_entries (params s) _ Hok); [reflexivity|].
    intros k _ []. }
  exists (add_all (entries s) (empty_store out)). split; [|exact Hadd].
  apply constructed_pairs. exists (entries s). split; [|reflexivity].
  clear Hadd. unfold out. clear out. revert Hp Hw. generalize (entries s) as es.
  intros es Hp Hw.
  destruct Hp as [|e p es ps He Hps]; [reflexivity|].
  destruct (serialized_units e p He) as (Hamp & Hne & Hq).
  destruct (join_not_nil JS.AMP p ps Hne) as (c & r & Ej & p' & ->).
  unfold segments, stripped. rewrite Ej. simpl in Hq.
  simpl JS.startsWith. rewrite Hq. rewrite <- Ej.
  rewrite split_join; [|discriminate|].
  - apply var_pair_serialized; [exact Hw | now constructor].
  - constructor; [exact Hamp|].
    clear -Hps. induction Hps as [|e' q es' ps' He' _ IH]; constructor; trivial.
    apply (serialized_units e' _ He').
Qed.

(** X22. [toString] tells stores with different entries apart: two stores
    with no unpaired surrogate in their keys and values that serialise to
    the same string yield the same entries. *)
Theorem toString_determines_the_entries (s1 s2 : SearchParams) :
  Map_ok (params s1) -> Map_ok (params s2) ->
  Forall (fun e => well_formed_unicode (fst e) = true
                   /\ well_formed_unicode (snd e) = true) (entries s1) ->
  Forall (fun e => well_formed_unicode (fst e) = true
                   /\ well_formed_unicode (snd e) = true) (entries s2) ->
  toString s1 = toString s2 ->
  entries s1 = entries s2.
Proof.
  intros Hok1 Hok2 Hw1 Hw2 Heq.
  destruct (toString_well_formed s1 Hw1) as [parts Hp].
  assert (Hout : toString s1 = Normal (JS.join JS.AMP parts))
    by (apply toString_Normal; now exists parts).
  destruct (toString_constructed s1 _ Hok1 Hw1 Hout) as (t1 & Hc1 & He1).
  rewrite Heq in Hout.
  destruct (toString_constructed s2 _ Hok2 Hw2 Hout) as (t2 & Hc2 & He2).
  unfold constructed in *. rewrite Hc1 in Hc2. injection Hc2 as <-.
  congruence.
Qed.

Lemma toString_determines_the_entries_witness :
  entries test_store
  = entries (append (js "a") (JS.ANumber 4 eq_refl)
               (set (js "c") (JS.ANumber 3 eq_refl) (fst (delete (js "a") test_store)))).
Proof.
  apply toString_determines_the_entries.
  - exact test_store_ok.
  - vm_compute. repeat constructor; simpl; intuition discriminate.
  - repeat constructor.
  - repeat constructor.
  - vm_compute. reflexivity.
Defined.
